(** * RefreshableCache (index.js): a shallow embedding and its properties

    The cache of index.js is one constructor function whose closure holds
    two variables, [_cache] (an object created with [Object.create(null)]
    and used as a map from property names to records) and
    [_resetExpiryOnAccess].  Its methods call the timer functions of the
    platform ([setTimeout], [clearTimeout], [setInterval], [clearInterval])
    and [emit] of EventEmitter.

    The embedding threads one [State] through a small state-and-exception
    monad.  The state holds the two closure variables, the table of the
    timers that are armed, the clock, and the list of the events emitted so
    far (what the stub of [emit] in test/index.spec.js records).

    What lies outside the model: Symbol keys (the JSDoc of index.js types
    [key] as a string), numbers with a fractional part, and listeners
    that call back into the cache while an event is being emitted. *)

From Stdlib Require Import ZArith NArith Ascii String DecimalString.
From stdpp Require Import base tactics option list gmap strings relations sorting.

Local Open Scope Z_scope.
Local Open Scope string_scope.
Local Open Scope list_scope.

(** ** JavaScript values *)

(** The numbers of the model: NaN, the two infinities, and [Fin z], the
    Number value of the integer [z] (the double nearest to [z], as for a
    numeric literal; up to 2^53 every integer is its own Number value). *)
Inductive JsNumber :=
  | NaN
  | PosInf
  | NegInf
  | Fin (z : Z).

(** [VObj ref repr] is an object (or function) value: [ref] is its identity
    and [repr] the string that [String(obj)] yields. *)
Inductive JsVal :=
  | VUndefined
  | VNull
  | VBool (b : bool)
  | VNum (n : JsNumber)
  | VStr (s : string)
  | VObj (ref : nat) (repr : string).

#[global] Instance JsNumber_eq_dec : EqDecision JsNumber.
Proof. solve_decision. Defined.
#[global] Instance JsVal_eq_dec : EqDecision JsVal.
Proof. solve_decision. Defined.

(** [typeof v].  The code compares it with 'undefined', 'number' and
    'boolean' only, so functions are not told apart from other objects. *)
Definition typeof (v : JsVal) : string :=
  match v with
  | VUndefined => "undefined"
  | VNull => "object"
  | VBool _ => "boolean"
  | VNum _ => "number"
  | VStr _ => "string"
  | VObj _ _ => "object"
  end.

Definition as_number (v : JsVal) : option JsNumber :=
  match v with VNum n => Some n | _ => None end.

(** [isNaN(n)] and [n <= 0] on a value of type number. *)
Definition isNaN (n : JsNumber) : bool :=
  match n with NaN => true | _ => false end.

Definition le_zero (n : JsNumber) : bool :=
  match n with
  | NaN => false
  | PosInf => false
  | NegInf => true
  | Fin z => bool_decide (z <= 0)
  end.

(** The double nearest to the positive integer [z], ties to the even
    significand; [None] beyond the largest double. *)
Definition round_double (z : Z) : option Z :=
  let bits := Z.log2 z + 1 in
  if (bits <=? 53)%Z then Some z
  else
    let shift := bits - 53 in
    let q := Z.shiftr z shift in
    let r := z - Z.shiftl q shift in
    let half := Z.shiftl 1 (shift - 1) in
    let q' := if ((half <? r) || ((r =? half) && Z.odd q))%Z then q + 1 else q in
    let m := Z.shiftl q' shift in
    if (m <? Z.shiftl 1 1024)%Z then Some m else None.

Definition decimal (z : Z) : string := NilZero.string_of_int (Z.to_int z).

(** [s * 10^e] reads back as the double [m]. *)
Definition reads_back (m s e : Z) : bool :=
  match round_double (s * 10 ^ e) with
  | Some m' => (m' =? m)%Z
  | None => false
  end.

(** Number::toString, step 5: the digits [s] and the exponent [e] of the
    shortest decimal that reads back as the double [m], which has [len]
    decimal digits; with [k] digits the candidates are the two neighbours
    of [m] on the grid of step [10^e], the nearer one first and the even one
    on a tie. *)
Fixpoint shortest_decimal (fuel : nat) (m len k : Z) : Z * Z :=
  match fuel with
  | O => (m, 0)
  | S fuel' =>
      let e := len - k in
      let lo := m / 10 ^ e in
      let hi := lo + 1 in
      let below := m - lo * 10 ^ e in
      let above := hi * 10 ^ e - m in
      let lo_first := ((below <? above) || ((below =? above) && Z.even lo))%Z in
      let first := if lo_first then lo else hi in
      let second := if lo_first then hi else lo in
      if reads_back m first e then (first, e)
      else if reads_back m second e then (second, e)
      else shortest_decimal fuel' m len (k + 1)
  end.

Fixpoint strip_zeros (rev_digits : list ascii) : list ascii :=
  match rev_digits with
  | "0"%char :: l => strip_zeros l
  | _ => rev_digits
  end.

Definition zeros (n : Z) : string := string_of_list_ascii (repeat "0"%char (Z.to_nat n)).

(** Number::toString for the double [m], a positive integer: plain digits
    when there are at most 21 of them, exponent form otherwise. *)
Definition double_to_string (m : Z) : string :=
  let len := Z.of_nat (String.length (decimal m)) in
  let '(s, e) := shortest_decimal (Z.to_nat len) m len 1 in
  let all := list_ascii_of_string (decimal s) in
  let digits := rev (strip_zeros (rev all)) in
  let k := Z.of_nat (length digits) in
  let n := Z.of_nat (length all) + e in
  if (n <=? 21)%Z then string_of_list_ascii digits +:+ zeros (n - k)
  else
    match digits with
    | [] => EmptyString
    | [d] => String d ("e+" +:+ decimal (n - 1))
    | d :: rest =>
        String d ("." +:+ string_of_list_ascii rest +:+ "e+" +:+ decimal (n - 1))
    end.

Definition number_to_string (n : JsNumber) : string :=
  match n with
  | NaN => "NaN"
  | PosInf => "Infinity"
  | NegInf => "-Infinity"
  | Fin 0 => "0"
  | Fin (Zpos p) =>
      match round_double (Zpos p) with
      | Some m => double_to_string m
      | None => "Infinity"
      end
  | Fin (Zneg p) =>
      match round_double (Zpos p) with
      | Some m => "-" +:+ double_to_string m
      | None => "-Infinity"
      end
  end.

(** [_cache[key]] turns [key] into a property name: the string coercion of
    the key. *)
Definition ToPropertyKey (key : JsVal) : string :=
  match key with
  | VUndefined => "undefined"
  | VNull => "null"
  | VBool true => "true"
  | VBool false => "false"
  | VNum n => number_to_string n
  | VStr s => s
  | VObj _ repr => repr
  end.

(** ** Objects used as maps: own properties in creation order *)

Section Properties.
Context {V : Type}.

Fixpoint prop_get (k : string) (o : list (string * V)) : option V :=
  match o with
  | [] => None
  | (k', v) :: o' => if decide (k' = k) then Some v else prop_get k o'
  end.

(** [o[k] = v]: an existing property keeps its place, a new one is created
    after all the others. *)
Fixpoint prop_set (k : string) (v : V) (o : list (string * V)) : list (string * V) :=
  match o with
  | [] => [(k, v)]
  | (k', v') :: o' =>
      if decide (k' = k) then (k', v) :: o' else (k', v') :: prop_set k v o'
  end.

(** [delete o[k]] *)
Definition prop_delete (k : string) (o : list (string * V)) : list (string * V) :=
  filter (λ kv, kv.1 ≠ k) o.
End Properties.

(** An array index is the canonical decimal form of an integer between 0 and
    2^32 - 2. *)
Definition digit_of (a : ascii) : option N :=
  let n := N_of_ascii a in
  if ((48 <=? n) && (n <=? 57))%N then Some (n - 48)%N else None.

Fixpoint parse_digits (s : string) (acc : N) : option N :=
  match s with
  | EmptyString => Some acc
  | String a s' =>
      match digit_of a with
      | Some d => parse_digits s' (10 * acc + d)%N
      | None => None
      end
  end.

Definition array_index (s : string) : option N :=
  match s with
  | EmptyString => None
  | String a s' =>
      if decide (a = "0"%char) then
        (if decide (s' = EmptyString) then Some 0%N else None)
      else
        match parse_digits s 0 with
        | Some n => if (n <=? 4294967294)%N then Some n else None
        | None => None
        end
  end.

(** Ascending insertion of an array index among array indices. *)
Fixpoint insert_index (x : N * string) (l : list (N * string)) : list (N * string) :=
  match l with
  | [] => [x]
  | y :: l' => if (x.1 <=? y.1)%N then x :: y :: l' else y :: insert_index x l'
  end.

Fixpoint sort_indices (l : list (N * string)) : list (N * string) :=
  match l with
  | [] => []
  | x :: l' => insert_index x (sort_indices l')
  end.

Definition index_keys (ks : list string) : list (N * string) :=
  omap (λ k, (λ n, (n, k)) <$> array_index k) ks.

Definition named_keys (ks : list string) : list string :=
  filter (λ k, array_index k = None) ks.

(** The order in which JavaScript lists the own property names of an object:
    the array indices in ascending numeric order, then the other names in
    the order in which the properties were created. *)
Definition own_keys (ks : list string) : list string :=
  (sort_indices (index_keys ks)).*2 ++ named_keys ks.

(** [Object.keys(o)] (every property of [_cache] is created by assignment,
    hence enumerable). *)
Definition Object_keys {V} (o : list (string * V)) : list string :=
  own_keys o.*1.

(** ** Records, timers, events and the state *)

(** Timer handles are numbered in the order in which they are handed out. *)
Abbreviation Handle := nat (only parsing).

(** The record kept for a key.  A property that was never assigned reads as
    [undefined]: [VUndefined] for [duration], [None] for the two handles. *)
Record CacheRecord := mkRecord {
  r_value : JsVal;
  r_duration : JsVal;
  r_expirationTimeout : option Handle;
  r_refreshInterval : option Handle
}.

(** [{}] *)
Definition empty_record : CacheRecord :=
  mkRecord VUndefined VUndefined None None.

Definition set_value (v : JsVal) (r : CacheRecord) : CacheRecord :=
  mkRecord v (r_duration r) (r_expirationTimeout r) (r_refreshInterval r).
Definition set_duration (d : JsVal) (r : CacheRecord) : CacheRecord :=
  mkRecord (r_value r) d (r_expirationTimeout r) (r_refreshInterval r).
Definition set_expirationTimeout (h : Handle) (r : CacheRecord) : CacheRecord :=
  mkRecord (r_value r) (r_duration r) (Some h) (r_refreshInterval r).
Definition set_refreshInterval (h : Handle) (r : CacheRecord) : CacheRecord :=
  mkRecord (r_value r) (r_duration r) (r_expirationTimeout r) (Some h).

(** The two function expressions handed to the timers; each closes over the
    [key] argument of the call that created it. *)
Inductive Callback :=
  | ExpiryCb (key : JsVal)
  | RefreshCb (key : JsVal).

Definition cb_key (cb : Callback) : JsVal :=
  match cb with ExpiryCb k => k | RefreshCb k => k end.

Inductive TimerKind := Timeout | Interval.

(** An armed timer: its callback, the delay it was given and the clock
    reading at which it was armed (for an interval: last armed). *)
Record Timer := mkTimer {
  t_kind : TimerKind;
  t_cb : Callback;
  t_delay : JsVal;
  t_at : Z
}.

Record Event := mkEvent {
  eventName : string;
  ev_key : JsVal;
  ev_value : JsVal
}.

#[global] Instance CacheRecord_eq_dec : EqDecision CacheRecord.
Proof. solve_decision. Defined.
#[global] Instance Callback_eq_dec : EqDecision Callback.
Proof. solve_decision. Defined.
#[global] Instance TimerKind_eq_dec : EqDecision TimerKind.
Proof. solve_decision. Defined.
#[global] Instance Timer_eq_dec : EqDecision Timer.
Proof. solve_decision. Defined.
#[global] Instance Event_eq_dec : EqDecision Event.
Proof. solve_decision. Defined.

Record State := mkState {
  _cache : list (string * CacheRecord);
  _resetExpiryOnAccess : bool;
  timers : gmap Handle Timer;
  next_handle : Handle;
  now : Z;
  emitted : list Event
}.

(** [new RefreshableCache()] *)
Definition init : State := mkState [] false ∅ 0%nat 0 [].

Definition with_cache (c : list (string * CacheRecord)) (st : State) : State :=
  mkState c (_resetExpiryOnAccess st) (timers st) (next_handle st) (now st) (emitted st).
Definition with_flag (b : bool) (st : State) : State :=
  mkState (_cache st) b (timers st) (next_handle st) (now st) (emitted st).
Definition with_timers (t : gmap Handle Timer) (st : State) : State :=
  mkState (_cache st) (_resetExpiryOnAccess st) t (next_handle st) (now st) (emitted st).
Definition with_now (t : Z) (st : State) : State :=
  mkState (_cache st) (_resetExpiryOnAccess st) (timers st) (next_handle st) t (emitted st).

(** ** The monad: state and exceptions *)

Inductive JsError :=
  | Error (message : string)
  | TypeError.

Inductive Res (A : Type) :=
  | Ok (a : A) (st : State)
  | Throw (e : JsError) (st : State).
Arguments Ok {A} a st.
Arguments Throw {A} e st.

Definition M (A : Type) : Type := State → Res A.

#[global] Instance M_ret : MRet M := λ A a st, Ok a st.
#[global] Instance M_bind : MBind M := λ A B f m st,
  match m st with
  | Ok a st' => f a st'
  | Throw e st' => Throw e st'
  end.

Definition throw {A} (e : JsError) : M A := λ st, Throw e st.

(** The state in which a call leaves the program, whether it returns or
    throws. *)
Definition state_of {A} (r : Res A) : State :=
  match r with Ok _ st => st | Throw _ st => st end.

(** ** The primitives the methods are written with *)

(** [_cache[key]] *)
Definition cache_read (key : JsVal) : M (option CacheRecord) :=
  λ st, Ok (prop_get (ToPropertyKey key) (_cache st)) st.

(** [_cache[key] = record].  Records are objects, each held by one property
    of [_cache] and by nothing else between two calls; assigning to a field
    of the record of a present key is therefore the same store. *)
Definition cache_write (key : JsVal) (record : CacheRecord) : M unit :=
  λ st, Ok () (with_cache (prop_set (ToPropertyKey key) record (_cache st)) st).

(** [delete _cache[key]] *)
Definition cache_delete (key : JsVal) : M unit :=
  λ st, Ok () (with_cache (prop_delete (ToPropertyKey key) (_cache st)) st).

(** [_cache = Object.create(null)] *)
Definition cache_reset : M unit :=
  λ st, Ok () (with_cache [] st).

Definition read_flag : M bool :=
  λ st, Ok (_resetExpiryOnAccess st) st.

Definition write_flag (b : bool) : M unit :=
  λ st, Ok () (with_flag b st).

(** Arming a timer yields a handle that was never handed out before. *)
Definition arm (kind : TimerKind) (cb : Callback) (delay : JsVal) : M Handle :=
  λ st,
    let h := next_handle st in
    Ok h (mkState (_cache st) (_resetExpiryOnAccess st)
            (<[h := mkTimer kind cb delay (now st)]> (timers st))
            (S h) (now st) (emitted st)).

Definition setTimeout (cb : Callback) (delay : JsVal) : M Handle :=
  arm Timeout cb delay.

Definition setInterval (cb : Callback) (delay : JsVal) : M Handle :=
  arm Interval cb delay.

(** Cancelling: [undefined] (no handle) and a handle that is no longer armed
    are both accepted and change nothing. *)
Definition disarm (h : option Handle) : M unit :=
  λ st,
    match h with
    | None => Ok () st
    | Some h => Ok () (with_timers (delete h (timers st)) st)
    end.

Definition clearTimeout (h : option Handle) : M unit := disarm h.
Definition clearInterval (h : option Handle) : M unit := disarm h.

(** [self.emit(name, key, value)], as the stub of the test suite records it. *)
Definition emit (name : string) (key value : JsVal) : M unit :=
  λ st,
    Ok () (mkState (_cache st) (_resetExpiryOnAccess st) (timers st)
             (next_handle st) (now st) (emitted st ++ [mkEvent name key value])).

(** [Array.prototype.forEach] *)
Fixpoint forEach {A} (l : list A) (f : A → M unit) : M unit :=
  match l with
  | [] => mret ()
  | x :: l' => f x;; forEach l' f
  end.

(** ** The methods of RefreshableCache *)

(** [typeof t !== 'undefined' &&
     (typeof t !== 'number' || isNaN(t) || t <= 0)] *)
Definition not_positive_number (t : JsVal) : bool :=
  negb (bool_decide (typeof t = "undefined")) &&
  match as_number t with
  | None => true
  | Some n => isNaN n || le_zero n
  end.

Definition keys : M (list string) :=
  λ st, Ok (Object_keys (_cache st)) st.

Definition size : M nat :=
  λ st, Ok (length (Object_keys (_cache st))) st.

Definition del (key : JsVal) : M bool :=
  oldRecord ← cache_read key;
  match oldRecord with
  | Some oldRecord =>
      clearTimeout (r_expirationTimeout oldRecord);;
      clearInterval (r_refreshInterval oldRecord);;
      cache_delete key;;
      mret true
  | None => mret false
  end.

(** The body of a timer callback.  Reading [.value] of [undefined] throws a
    TypeError, before [emit] is entered. *)
Definition run_callback (cb : Callback) : M unit :=
  match cb with
  | ExpiryCb key =>
      record ← cache_read key;
      match record with
      | Some record =>
          emit "expiry" key (r_value record);;
          _ ← del key;
          mret ()
      | None => throw TypeError
      end
  | RefreshCb key =>
      record ← cache_read key;
      match record with
      | Some record => emit "refresh" key (r_value record)
      | None => throw TypeError
      end
  end.

Definition get (key : JsVal) : M JsVal :=
  record ← cache_read key;
  match record with
  | Some record =>
      let value := r_value record in
      reset ← read_flag;
      (if negb (bool_decide (typeof (r_duration record) = "undefined")) && reset then
         clearTimeout (r_expirationTimeout record);;
         h ← setTimeout (ExpiryCb key) (r_duration record);
         cache_write key (set_expirationTimeout h record)
       else mret ());;
      mret value
  | None => mret VNull
  end.

Definition put (key value duration refreshInterval : JsVal) : M JsVal :=
  if not_positive_number duration then
    throw (Error "Expiration time must be a positive number")
  else if not_positive_number refreshInterval then
    throw (Error "Refresh time must be a positive number")
  else
    oldRecord ← cache_read key;
    let newRecord := set_value value (default empty_record oldRecord) in
    newRecord ←
      (if negb (bool_decide (typeof duration = "undefined")) then
         (match oldRecord with
          | Some oldRecord => clearTimeout (r_expirationTimeout oldRecord)
          | None => mret ()
          end);;
         h ← setTimeout (ExpiryCb key) duration;
         mret (set_expirationTimeout h (set_duration duration newRecord))
       else mret newRecord);
    newRecord ←
      (if negb (bool_decide (typeof refreshInterval = "undefined")) then
         (match oldRecord with
          | Some oldRecord => clearInterval (r_refreshInterval oldRecord)
          | None => mret ()
          end);;
         h ← setInterval (RefreshCb key) refreshInterval;
         mret (set_refreshInterval h newRecord)
       else mret newRecord);
    cache_write key newRecord;;
    mret value.

Definition clear : M unit :=
  ks ← keys;
  forEach ks (λ key,
    oldRecord ← cache_read (VStr key);
    match oldRecord with
    | Some oldRecord =>
        clearTimeout (r_expirationTimeout oldRecord);;
        clearInterval (r_refreshInterval oldRecord)
    | None => throw TypeError
    end);;
  cache_reset.

Definition resetExpiryOnAccess (shouldResetExpiry : JsVal) : M unit :=
  match shouldResetExpiry with
  | VUndefined => write_flag true
  | VBool b => write_flag b
  | _ => throw (Error "Reset expiry on get flag must be a boolean")
  end.

(** ** The timers of the platform *)

(** Node's timers: a delay that is not a number between 1 and 2^31 - 1 is
    set to 1. *)
Definition TIMEOUT_MAX : Z := 2147483647.

Definition delay_ms (delay : JsVal) : Z :=
  match delay with
  | VNum (Fin z) => if bool_decide (1 <= z <= TIMEOUT_MAX) then z else 1
  | _ => 1
  end.

Definition timer_due (t : Timer) : Z := t_at t + delay_ms (t_delay t).

(** The platform runs the callback of an armed timer.  A timeout is spent
    before its callback runs; an interval is armed again. *)
Definition fire (h : Handle) : M unit :=
  λ st,
    match timers st !! h with
    | None => Ok () st
    | Some t =>
        match t_kind t with
        | Timeout =>
            run_callback (t_cb t) (with_timers (delete h (timers st)) st)
        | Interval =>
            run_callback (t_cb t)
              (with_timers
                 (<[h := mkTimer Interval (t_cb t) (t_delay t) (now st)]> (timers st)) st)
        end
    end.

Definition is_due (st : State) (h : Handle) : bool :=
  match timers st !! h with
  | Some t => bool_decide (timer_due t <= now st)
  | None => false
  end.

(** The fake clock of the test suite, one millisecond at a time: the clock
    moves, then the timers that are due run in the order of their handles;
    a timer that an earlier callback cancelled does not run. *)
Fixpoint run_due (hs : list Handle) : M unit :=
  match hs with
  | [] => mret ()
  | h :: hs' => (λ st, if is_due st h then fire h st else Ok () st);; run_due hs'
  end.

Definition tick1 : M unit :=
  λ st,
    let st' := with_now (now st + 1) st in
    run_due (filter (λ h, is_due st' h) (seq 0 (next_handle st'))) st'.

Fixpoint tick (ms : nat) : M unit :=
  match ms with
  | O => mret ()
  | S ms' => tick1;; tick ms'
  end.

(** ** The vocabulary of the properties *)

(** *** Listings of keys *)

(** Array indices compare by their numeric value. *)
Definition index_le (x y : N * string) : Prop := (x.1 <= y.1)%N.

(** The shape of a listing: array indices in ascending order first, then
    names that are not array indices. *)
Definition index_first (l : list string) : Prop :=
  ∃ idx named,
    l = idx.*2 ++ named ∧
    StronglySorted index_le idx ∧
    Forall (λ x, array_index x.2 = Some x.1) idx ∧
    Forall (λ k, array_index k = None) named.

(** *** The invariant *)

(** The handle [h] is armed as the expiration timer (resp. the refresh
    timer) of the property [k]. *)
Definition armed_timeout (ts : gmap Handle Timer) (k : string) (h : Handle) : Prop :=
  ∃ key delay t0, ts !! h = Some (mkTimer Timeout (ExpiryCb key) delay t0) ∧ ToPropertyKey key = k.

Definition armed_interval (ts : gmap Handle Timer) (k : string) (h : Handle) : Prop :=
  ∃ key delay t0, ts !! h = Some (mkTimer Interval (RefreshCb key) delay t0) ∧ ToPropertyKey key = k.

(** An armed timer belongs to the record found under the key of its
    callback, which holds its handle in the field of its kind. *)
Definition timer_owned (c : list (string * CacheRecord)) (h : Handle) (t : Timer) : Prop :=
  match t_cb t with
  | ExpiryCb key =>
      t_kind t = Timeout ∧
      ∃ r, prop_get (ToPropertyKey key) c = Some r ∧ r_expirationTimeout r = Some h
  | RefreshCb key =>
      t_kind t = Interval ∧
      ∃ r, prop_get (ToPropertyKey key) c = Some r ∧ r_refreshInterval r = Some h
  end.

(** What holds between two actions: one property per name; the armed
    handles were all handed out; every armed timer belongs to a record and
    every handle a record holds is armed, as the timer of its field and for
    its key; a record has a duration exactly when it holds an expiration
    handle. *)
Record store_inv (st : State) : Prop := mk_store_inv {
  inv_nodup : NoDup (_cache st).*1;
  inv_fresh : ∀ h, is_Some (timers st !! h) → (h < next_handle st)%nat;
  inv_owned : ∀ h t, timers st !! h = Some t → timer_owned (_cache st) h t;
  inv_expiration : ∀ k r h,
    prop_get k (_cache st) = Some r → r_expirationTimeout r = Some h →
    armed_timeout (timers st) k h;
  inv_refresh : ∀ k r h,
    prop_get k (_cache st) = Some r → r_refreshInterval r = Some h →
    armed_interval (timers st) k h;
  inv_duration : ∀ k r,
    prop_get k (_cache st) = Some r →
    (r_duration r = VUndefined ↔ r_expirationTimeout r = None)
}.

(** *** The methods as changes of the state *)

(** What [clearTimeout] and [clearInterval] do to the table of timers. *)
Definition cancel (h : option Handle) (ts : gmap Handle Timer) : gmap Handle Timer :=
  match h with Some h => delete h ts | None => ts end.

(** The value of the record under [key] is replaced; an absent key gets a
    new record without timers. *)
Definition store_value (key value : JsVal) (st : State) : State :=
  let k := ToPropertyKey key in
  with_cache
    (prop_set k (set_value value (default empty_record (prop_get k (_cache st))))
       (_cache st)) st.

(** The expiration timer of [record] (the record under [key]) is replaced by
    a new one for [delay]. *)
Definition rearm_expiration (key delay : JsVal) (record : CacheRecord) (st : State) : State :=
  let h := next_handle st in
  mkState
    (prop_set (ToPropertyKey key) (set_expirationTimeout h (set_duration delay record))
       (_cache st))
    (_resetExpiryOnAccess st)
    (<[h := mkTimer Timeout (ExpiryCb key) delay (now st)]>
       (cancel (r_expirationTimeout record) (timers st)))
    (S h) (now st) (emitted st).

(** The refresh timer of [record] is replaced by a new one for [delay]. *)
Definition rearm_refresh (key delay : JsVal) (record : CacheRecord) (st : State) : State :=
  let h := next_handle st in
  mkState
    (prop_set (ToPropertyKey key) (set_refreshInterval h record) (_cache st))
    (_resetExpiryOnAccess st)
    (<[h := mkTimer Interval (RefreshCb key) delay (now st)]>
       (cancel (r_refreshInterval record) (timers st)))
    (S h) (now st) (emitted st).

(** The record under [key] is removed with its timers. *)
Definition remove (key : JsVal) (record : CacheRecord) (st : State) : State :=
  mkState
    (prop_delete (ToPropertyKey key) (_cache st))
    (_resetExpiryOnAccess st)
    (cancel (r_refreshInterval record) (cancel (r_expirationTimeout record) (timers st)))
    (next_handle st) (now st) (emitted st).

(** The state after a write whose arguments pass the checks: the value is
    stored, then each timer for which an argument was supplied is
    replaced. *)
Definition put_state (key value duration refreshInterval : JsVal) (st : State) : State :=
  let record1 :=
    set_value value (default empty_record (prop_get (ToPropertyKey key) (_cache st))) in
  let st1 := store_value key value st in
  let record2 :=
    if decide (duration = VUndefined) then record1
    else set_expirationTimeout (next_handle st) (set_duration duration record1) in
  let st2 :=
    if decide (duration = VUndefined) then st1
    else rearm_expiration key duration record1 st1 in
  if decide (refreshInterval = VUndefined) then st2
  else rearm_refresh key refreshInterval record2 st2.

(** The timers left when the timers of the records under [ks] are
    cancelled. *)
Definition cancel_records (c : list (string * CacheRecord)) (ks : list string)
    (ts : gmap Handle Timer) : gmap Handle Timer :=
  foldl (λ ts k,
    match prop_get k c with
    | Some r => cancel (r_refreshInterval r) (cancel (r_expirationTimeout r) ts)
    | None => ts
    end) ts ks.

(** What [emit] does to the state. *)
Definition add_event (e : Event) (st : State) : State :=
  mkState (_cache st) (_resetExpiryOnAccess st) (timers st) (next_handle st) (now st)
    (emitted st ++ [e]).

(** *** Runs *)

(** What can happen to a cache: a call of one of its methods, a timer that
    is due running its callback, time passing. *)
Inductive Action :=
  | APut (key value duration refreshInterval : JsVal)
  | AGet (key : JsVal)
  | ADel (key : JsVal)
  | AClear
  | AResetExpiryOnAccess (shouldResetExpiry : JsVal)
  | ASize
  | AKeys
  | AFire (h : Handle)
  | AWait (ms : Z).

(** A method can be called at any time; a timer runs no earlier than it is
    due; time does not go back. *)
Definition enabled (a : Action) (st : State) : Prop :=
  match a with
  | AFire h => is_due st h = true
  | AWait ms => 0 <= ms
  | _ => True
  end.

(** The state after an action; a call that throws leaves the state in
    which it threw. *)
Definition exec (a : Action) (st : State) : State :=
  match a with
  | APut key value duration refreshInterval =>
      state_of (put key value duration refreshInterval st)
  | AGet key => state_of (get key st)
  | ADel key => state_of (del key st)
  | AClear => state_of (clear st)
  | AResetExpiryOnAccess v => state_of (resetExpiryOnAccess v st)
  | ASize => state_of (size st)
  | AKeys => state_of (keys st)
  | AFire h => state_of (fire h st)
  | AWait ms => with_now (now st + ms) st
  end.

(** [trace st l st']: the actions [l], each enabled in its turn, lead from
    [st] to [st']. *)
Inductive trace : State → list Action → State → Prop :=
  | trace_nil st : trace st [] st
  | trace_cons a l st st' :
      enabled a st → trace (exec a st) l st' → trace st (a :: l) st'.

(** The states a new cache can get into. *)
Definition reachable (st : State) : Prop := ∃ l, trace init l st.

(** *** Notions the theorems are stated with *)

(** The timer held in a field of the record ([old] before the call, [new]
    after it) was left alone: same handle, same entry in the table of
    timers, hence same delay and same arming time. *)
Definition timer_kept (old new : option Handle) (st st' : State) : Prop :=
  new = old ∧ ∀ h, old = Some h → timers st' !! h = timers st !! h.

(** The timer held in a field of the record was cancelled and a new one
    armed for [delay] at the time of the call. *)
Definition timer_replaced (kind : TimerKind) (cb : Callback) (delay : JsVal)
    (old new : option Handle) (st st' : State) : Prop :=
  (∀ h, old = Some h → timers st' !! h = None) ∧
  ∃ h', new = Some h' ∧ timers st !! h' = None ∧
        timers st' !! h' = Some (mkTimer kind cb delay (now st)).

(** One record per key, and per key at most one armed timer of each
    kind. *)
Definition one_timer_each (st : State) : Prop :=
  NoDup (_cache st).*1 ∧
  ∀ h1 h2 t1 t2,
    timers st !! h1 = Some t1 → timers st !! h2 = Some t2 →
    t_kind t1 = t_kind t2 →
    ToPropertyKey (cb_key (t_cb t1)) = ToPropertyKey (cb_key (t_cb t2)) →
    h1 = h2.

(** The action is a write to the property [k]. *)
Definition writes (k : string) (a : Action) : Prop :=
  match a with
  | APut key _ _ _ => ToPropertyKey key = k
  | _ => False
  end.

(** The event was emitted for the property [k]. *)
Definition event_of (k : string) (e : Event) : Prop := ToPropertyKey (ev_key e) = k.

(** The check as the specification words it: a finite positive number. *)
Definition spec_finite_positive (v : JsVal) : bool :=
  match v with
  | VNum (Fin z) => bool_decide (0 < z)
  | _ => false
  end.

(** What the checks of [put] let through: a positive number, [Infinity]
    included. *)
Definition positive_number (v : JsVal) : bool :=
  match v with
  | VNum PosInf => true
  | VNum (Fin z) => bool_decide (0 < z)
  | _ => false
  end.

(** What [get] returns for a key that is not in the cache. *)
Definition absent_marker : JsVal := VNull.

(** The action is a call of [resetExpiryOnAccess]. *)
Definition sets_flag (a : Action) : Prop :=
  match a with AResetExpiryOnAccess _ => True | _ => False end.

(** ** Sample states *)

(** After [put('key', 'value1', 1000, 10)] on a new cache: handle 0 is the
    expiration timer, handle 1 the refresh timer. *)
Definition sample_both : State :=
  exec (APut (VStr "key") (VStr "value1") (VNum (Fin 1000)) (VNum (Fin 10))) init.

Definition sample_record : CacheRecord :=
  mkRecord (VStr "value1") (VNum (Fin 1000)) (Some 0%nat) (Some 1%nat).

(** After [resetExpiryOnAccess()] and [put('key', 'value', 1000)]. *)
Definition sample_reset : State :=
  exec (APut (VStr "key") (VStr "value") (VNum (Fin 1000)) VUndefined)
    (exec (AResetExpiryOnAccess VUndefined) init).

(** The state a call or a run of the clock leaves. *)
Definition after {A} (m : M A) (st : State) : State := state_of (m st).

(** ** Further notions *)

(** The exception a call ends with, if any. *)
Definition thrown {A} (r : Res A) : option JsError :=
  match r with Ok _ _ => None | Throw e _ => Some e end.

(** The exception an action ends with, if any; time passing throws
    nothing. *)
Definition error_of (a : Action) (st : State) : option JsError :=
  match a with
  | APut key value duration refreshInterval =>
      thrown (put key value duration refreshInterval st)
  | AGet key => thrown (get key st)
  | ADel key => thrown (del key st)
  | AClear => thrown (clear st)
  | AResetExpiryOnAccess v => thrown (resetExpiryOnAccess v st)
  | ASize => thrown (size st)
  | AKeys => thrown (keys st)
  | AFire h => thrown (fire h st)
  | AWait _ => None
  end.

(** The key a call of [put], [get] or [del] is about. *)
Definition target (a : Action) : option JsVal :=
  match a with
  | APut key _ _ _ => Some key
  | AGet key => Some key
  | ADel key => Some key
  | _ => None
  end.

(** The action is a call of a method (not a timer running, not time
    passing). *)
Definition is_call (a : Action) : Prop :=
  match a with
  | AFire _ => False
  | AWait _ => False
  | _ => True
  end.

(** The actions that can take the property [k] away or give it an
    expiration: [clear], [del] of it, and a write to it with a duration. *)
Definition may_end (k : string) (a : Action) : Prop :=
  match a with
  | AClear => True
  | ADel key => ToPropertyKey key = k
  | APut key _ duration _ => ToPropertyKey key = k ∧ duration ≠ VUndefined
  | _ => False
  end.

(** Every delay in use passed the checks of [put]: the duration of a record
    is absent or a positive number, every armed timer has a positive number
    as its delay, and the expiration timer a record holds is armed for the
    duration of the record. *)
Definition delays_valid (st : State) : Prop :=
  (∀ k r, prop_get k (_cache st) = Some r →
          r_duration r = VUndefined ∨ positive_number (r_duration r) = true) ∧
  (∀ h t, timers st !! h = Some t → positive_number (t_delay t) = true) ∧
  (∀ k r h t, prop_get k (_cache st) = Some r → r_expirationTimeout r = Some h →
              timers st !! h = Some t → t_delay t = r_duration r).

(** The property names paired with the two kinds of timer. *)
Definition timer_slots (ks : list string) : list (string * TimerKind) :=
  ks ≫= λ k, [(k, Timeout); (k, Interval)].

(** The slot an armed timer fills: the property of its callback and its
    kind. *)
Definition slot_of (ht : nat * Timer) : string * TimerKind :=
  (ToPropertyKey (cb_key (t_cb ht.2)), t_kind ht.2).

(** The state right after [put(key, value, d)] on a new cache. *)
Definition fresh_timed (key value : JsVal) (d : Z) : State :=
  after (put key value (VNum (Fin d)) VUndefined) init.

(** The states [fresh_timed key value d] goes through as the clock runs:
    the record waits for its timer until the clock reads [d], then the
    cache is empty and one event was emitted. *)
Definition waiting (key value : JsVal) (d m : Z) : State :=
  mkState
    [(ToPropertyKey key, mkRecord value (VNum (Fin d)) (Some 0%nat) None)]
    false
    (<[0%nat := mkTimer Timeout (ExpiryCb key) (VNum (Fin d)) 0]> ∅)
    1%nat m [].

Definition expired (key value : JsVal) (m : Z) : State :=
  mkState [] false ∅ 1%nat m [mkEvent "expiry" key value].

(** The states the cache goes through after [put(key, value, undefined, d)]
    on a new cache as the clock runs: at clock reading [m] the refresh timer
    ran [q] times, the last time at [d * q]. *)
Definition refreshing (key value : JsVal) (d : Z) (q : nat) (m : Z) : State :=
  mkState
    [(ToPropertyKey key, mkRecord value VUndefined None (Some 0%nat))]
    false
    (<[0%nat := mkTimer Interval (RefreshCb key) (VNum (Fin d)) (d * Z.of_nat q)]> ∅)
    1%nat m (replicate q (mkEvent "refresh" key value)).

(** ** The place of a new array index in a listing *)

(** The name [k] is an array index not above [n]. *)
Definition index_at_most (n : N) (k : string) : Prop :=
  match array_index k with
  | Some m => (m <= n)%N
  | None => False
  end.

#[global] Instance index_at_most_dec n k : Decision (index_at_most n k).
Proof. unfold index_at_most. destruct (array_index k); apply _. Defined.

(** The actions that neither add nor remove a key: everything but [put],
    [del], [clear] and an expiration timer running. *)
Definition leaves_keys (a : Action) (st : State) : Prop :=
  match a with
  | APut _ _ _ _ => False
  | ADel _ => False
  | AClear => False
  | AFire h => ∀ t, timers st !! h = Some t → t_kind t = Interval
  | _ => True
  end.

(** After [put('b', 'x')] and [put('a', 'y')] on a new cache. *)
Definition sample_two : State :=
  exec (APut (VStr "a") (VStr "y") VUndefined VUndefined)
    (exec (APut (VStr "b") (VStr "x") VUndefined VUndefined) init).

(** * Properties *)

(** ** Property lists *)

Section PropertiesFacts.
Context {V : Type}.
Implicit Types (o : list (string * V)) (k : string) (v : V).

Lemma prop_get_None k o : prop_get k o = None ↔ k ∉ o.*1.
Proof.
  induction o as [|[k' v'] o IH]; simpl.
  - split; [intros _; apply not_elem_of_nil | done].
  - rewrite not_elem_of_cons. case_decide; subst.
    + split; [done | intros [? _]; done].
    + rewrite IH. split; [intros ?; split; [congruence | done] | intros [_ ?]; done].
Qed.

Lemma prop_get_Some k v o : prop_get k o = Some v → (k, v) ∈ o.
Proof.
  induction o as [|[k' v'] o IH]; simpl; [done|].
  case_decide; subst.
  - intros [= ->]. apply elem_of_cons; by left.
  - intros ?. apply elem_of_cons; right; auto.
Qed.

Lemma prop_get_is_Some k o : is_Some (prop_get k o) ↔ k ∈ o.*1.
Proof.
  destruct (prop_get k o) eqn:E.
  - split; [intros _ | eauto].
    apply prop_get_Some in E. apply list_elem_of_fmap. by exists (k, v).
  - split; [intros [? ?]; done |].
    intros ?. by apply prop_get_None in E.
Qed.

Lemma prop_get_set k k' v o :
  prop_get k' (prop_set k v o) = if decide (k = k') then Some v else prop_get k' o.
Proof.
  induction o as [|[k0 v0] o IH]; simpl.
  - repeat case_decide; congruence.
  - repeat (case_decide; simpl; subst); try congruence.
Qed.

Lemma prop_get_delete k k' o :
  prop_get k' (prop_delete k o) = if decide (k = k') then None else prop_get k' o.
Proof.
  unfold prop_delete. induction o as [|[k0 v0] o IH]; simpl.
  - by case_decide.
  - rewrite filter_cons. simpl.
    repeat (case_decide; simpl; subst); try congruence.
Qed.

Lemma prop_set_keys_present k v o :
  is_Some (prop_get k o) → (prop_set k v o).*1 = o.*1.
Proof.
  induction o as [|[k0 v0] o IH]; simpl.
  - intros [? ?]; done.
  - case_decide; simpl; subst; [done|].
    intros ?. f_equal. auto.
Qed.

Lemma prop_set_keys_absent k v o :
  prop_get k o = None → (prop_set k v o).*1 = o.*1 ++ [k].
Proof.
  induction o as [|[k0 v0] o IH]; simpl; [done|].
  case_decide; simpl; subst; [done|].
  intros ?. f_equal. auto.
Qed.

Lemma prop_delete_keys k o :
  (prop_delete k o).*1 = filter (λ k', k' ≠ k) (o.*1).
Proof.
  unfold prop_delete. induction o as [|[k0 v0] o IH]; simpl; [done|].
  rewrite !filter_cons. simpl. case_decide; simpl; [f_equal|]; exact IH.
Qed.

Lemma prop_set_NoDup k v o : NoDup o.*1 → NoDup (prop_set k v o).*1.
Proof.
  intros Hnd. destruct (prop_get k o) eqn:E.
  - by rewrite prop_set_keys_present.
  - rewrite prop_set_keys_absent by done.
    apply NoDup_app. split_and!; [done| |apply NoDup_singleton].
    intros x Hx ->%list_elem_of_singleton. by apply prop_get_None in E.
Qed.

Lemma prop_delete_NoDup k o : NoDup o.*1 → NoDup (prop_delete k o).*1.
Proof. rewrite prop_delete_keys. apply NoDup_filter. Qed.
End PropertiesFacts.

(** ** The order of the property names *)

Lemma insert_index_Permutation x l : insert_index x l ≡ₚ x :: l.
Proof.
  induction l as [|y l IH]; simpl; [done|].
  destruct (x.1 <=? y.1)%N; [done|].
  rewrite IH. apply Permutation_swap.
Qed.

Lemma sort_indices_Permutation l : sort_indices l ≡ₚ l.
Proof.
  induction l as [|x l IH]; simpl; [done|].
  by rewrite insert_index_Permutation, IH.
Qed.

Lemma insert_index_sorted x l :
  StronglySorted index_le l → StronglySorted index_le (insert_index x l).
Proof.
  induction 1 as [|y l Hl IH Hy]; simpl.
  - repeat constructor.
  - destruct (x.1 <=? y.1)%N eqn:E.
    + apply N.leb_le in E. constructor; [by constructor|].
      constructor; [done|].
      eapply Forall_impl; [exact Hy|]. unfold index_le. intros; lia.
    + apply N.leb_gt in E. constructor; [done|].
      rewrite insert_index_Permutation. constructor; [|done].
      unfold index_le. lia.
Qed.

Lemma sort_indices_sorted l : StronglySorted index_le (sort_indices l).
Proof.
  induction l; simpl; [constructor | by apply insert_index_sorted].
Qed.

Lemma insert_index_below x l :
  Forall (index_le x) l → insert_index x l = x :: l.
Proof.
  destruct 1 as [|y l Hy _]; simpl; [done|].
  unfold index_le in Hy. by apply N.leb_le in Hy as ->.
Qed.

Lemma insert_index_filter (P : N * string → Prop) `{!∀ x, Decision (P x)} x l :
  StronglySorted index_le l →
  filter P (insert_index x l) =
    if decide (P x) then insert_index x (filter P l) else filter P l.
Proof.
  induction 1 as [|y l Hl IH Hy]; simpl.
  - rewrite filter_cons. by case_decide.
  - destruct (x.1 <=? y.1)%N eqn:E.
    + apply N.leb_le in E. rewrite filter_cons.
      case_decide; [|done]. f_equal. symmetry. apply insert_index_below.
      apply Forall_forall. intros z Hz.
      apply list_elem_of_filter in Hz as [_ Hz].
      apply elem_of_cons in Hz as [->|Hz]; [done|].
      rewrite Forall_forall in Hy. specialize (Hy z Hz).
      unfold index_le in *. lia.
    + rewrite (filter_cons _ y (insert_index x l)), IH.
      rewrite (filter_cons _ y l).
      repeat case_decide; simpl; by rewrite ?E.
Qed.

Lemma sort_indices_filter (P : N * string → Prop) `{!∀ x, Decision (P x)} l :
  filter P (sort_indices l) = sort_indices (filter P l).
Proof.
  induction l as [|x l IH]; simpl; [done|].
  rewrite insert_index_filter by apply sort_indices_sorted.
  rewrite filter_cons. case_decide; simpl; by rewrite IH.
Qed.

Lemma index_keys_cons k ks :
  index_keys (k :: ks) =
    match array_index k with
    | Some n => (n, k) :: index_keys ks
    | None => index_keys ks
    end.
Proof. unfold index_keys. csimpl. by destruct (array_index k). Qed.

Lemma index_keys_filter (Q : string → Prop) `{!∀ k, Decision (Q k)} ks :
  index_keys (filter Q ks) = filter (λ x, Q x.2) (index_keys ks).
Proof.
  induction ks as [|k ks IH]; [done|].
  rewrite filter_cons, index_keys_cons.
  destruct (array_index k) eqn:E.
  - rewrite filter_cons. simpl.
    case_decide; [rewrite index_keys_cons, E|]; by rewrite IH.
  - case_decide; [rewrite index_keys_cons, E|]; by rewrite IH.
Qed.

Lemma snd_filter (Q : string → Prop) `{!∀ k, Decision (Q k)} (l : list (N * string)) :
  (filter (λ x, Q x.2) l).*2 = filter Q (l.*2).
Proof.
  induction l as [|x l IH]; [done|].
  rewrite fmap_cons, !filter_cons. case_decide; [rewrite fmap_cons|]; by rewrite IH.
Qed.

Lemma named_keys_filter (Q : string → Prop) `{!∀ k, Decision (Q k)} ks :
  named_keys (filter Q ks) = filter Q (named_keys ks).
Proof.
  unfold named_keys. induction ks as [|k ks IH]; [done|].
  rewrite !filter_cons. repeat (case_decide; rewrite ?filter_cons); by rewrite IH.
Qed.

Lemma own_keys_filter (Q : string → Prop) `{!∀ k, Decision (Q k)} ks :
  own_keys (filter Q ks) = filter Q (own_keys ks).
Proof.
  unfold own_keys.
  rewrite filter_app, index_keys_filter, named_keys_filter.
  by rewrite <- sort_indices_filter, snd_filter.
Qed.

Lemma index_keys_app ks1 ks2 :
  index_keys (ks1 ++ ks2) = index_keys ks1 ++ index_keys ks2.
Proof. unfold index_keys. apply omap_app. Qed.

Lemma own_keys_named_app ks k :
  array_index k = None → own_keys (ks ++ [k]) = own_keys ks ++ [k].
Proof.
  intros E. unfold own_keys, named_keys.
  rewrite index_keys_app, index_keys_cons, E, filter_app.
  rewrite filter_cons, decide_True by done.
  change (index_keys []) with (@nil (N * string)).
  by rewrite app_nil_r, filter_nil, app_assoc.
Qed.

Lemma index_named_Permutation ks : (index_keys ks).*2 ++ named_keys ks ≡ₚ ks.
Proof.
  unfold named_keys. induction ks as [|k ks IH]; [done|].
  rewrite filter_cons, index_keys_cons. destruct (array_index k) eqn:E.
  - rewrite decide_False by done. rewrite fmap_cons. simpl. by rewrite IH.
  - rewrite decide_True by done.
    by rewrite <- Permutation_middle, IH.
Qed.

Lemma own_keys_Permutation ks : own_keys ks ≡ₚ ks.
Proof.
  unfold own_keys. by rewrite sort_indices_Permutation, index_named_Permutation.
Qed.

Lemma elem_of_own_keys k ks : k ∈ own_keys ks ↔ k ∈ ks.
Proof. by rewrite own_keys_Permutation. Qed.

Lemma length_own_keys ks : length (own_keys ks) = length ks.
Proof. by rewrite own_keys_Permutation. Qed.

Lemma index_keys_spec ks x : x ∈ index_keys ks → array_index x.2 = Some x.1.
Proof.
  unfold index_keys. rewrite list_elem_of_omap. intros (k & _ & Hk).
  destruct (array_index k) eqn:E; simplify_eq/=. done.
Qed.

Lemma own_keys_index_first ks : index_first (own_keys ks).
Proof.
  exists (sort_indices (index_keys ks)), (named_keys ks). split_and!.
  - done.
  - apply sort_indices_sorted.
  - apply Forall_forall. intros x Hx. apply index_keys_spec with ks.
    by rewrite sort_indices_Permutation in Hx.
  - apply Forall_forall. intros k Hk.
    by apply list_elem_of_filter in Hk as [? _].
Qed.

(** ** The invariant of the store *)

Lemma cancel_lookup h h' ts :
  cancel h ts !! h' = if decide (h = Some h') then None else ts !! h'.
Proof.
  destruct h as [h|]; simpl.
  - rewrite lookup_delete. repeat case_decide; congruence.
  - done.
Qed.

Lemma cancel_lookup_Some h h' t ts :
  cancel h ts !! h' = Some t ↔ h ≠ Some h' ∧ ts !! h' = Some t.
Proof.
  rewrite cancel_lookup. case_decide.
  - split; [done | intros [? _]; done].
  - split; [intros ?; split; done | intros [_ ?]; done].
Qed.

(** The changes a write is made of keep the invariant. *)

Lemma timer_owned_set c k r r0 h t :
  prop_get k c = r0 →
  (∀ r1, r0 = Some r1 →
     (r_expirationTimeout r1 = Some h → r_expirationTimeout r = Some h) ∧
     (r_refreshInterval r1 = Some h → r_refreshInterval r = Some h)) →
  timer_owned c h t → timer_owned (prop_set k r c) h t.
Proof.
  intros Hget Hr. unfold timer_owned.
  destruct (t_cb t) as [key|key]; intros [Hk (r1 & Hr1 & Hh)]; (split; [done|]);
    rewrite prop_get_set; case_decide; subst; eauto;
    (exists r; split; [done|]; by apply (Hr r1)).
Qed.

Lemma store_value_inv key value st : store_inv st → store_inv (store_value key value st).
Proof.
  intros [Hnd Hfresh Hown Hexp Href Hdur]. unfold store_value.
  set (k := ToPropertyKey key).
  constructor; simpl.
  - by apply prop_set_NoDup.
  - done.
  - intros h t Ht. eapply timer_owned_set; [done| |by apply Hown].
    intros r1 ->. done.
  - intros k' r h. rewrite prop_get_set. case_decide; subst.
    + intros [= <-]. simpl. destruct (prop_get k (_cache st)) eqn:E; simpl; [|done].
      by apply Hexp.
    + apply Hexp.
  - intros k' r h. rewrite prop_get_set. case_decide; subst.
    + intros [= <-]. simpl. destruct (prop_get k (_cache st)) eqn:E; simpl; [|done].
      by apply Href.
    + apply Href.
  - intros k' r. rewrite prop_get_set. case_decide; subst.
    + intros [= <-]. simpl. destruct (prop_get k (_cache st)) eqn:E; simpl; [|done].
      by apply Hdur with k.
    + apply Hdur.
Qed.

Lemma lookup_rearm ts (n h : Handle) ho T :
  <[n := T]> (cancel ho ts) !! h =
    if decide (n = h) then Some T
    else if decide (ho = Some h) then None else ts !! h.
Proof. by rewrite lookup_insert, cancel_lookup. Qed.

Lemma armed_kinds_differ ts k k' h : armed_timeout ts k h → armed_interval ts k' h → False.
Proof. intros (? & ? & ? & H1 & _) (? & ? & ? & H2 & _). congruence. Qed.

Lemma armed_timeout_key ts k k' h : armed_timeout ts k h → armed_timeout ts k' h → k = k'.
Proof. intros (? & ? & ? & H1 & <-) (? & ? & ? & H2 & <-). congruence. Qed.

Lemma armed_interval_key ts k k' h : armed_interval ts k h → armed_interval ts k' h → k = k'.
Proof. intros (? & ? & ? & H1 & <-) (? & ? & ? & H2 & <-). congruence. Qed.

Lemma armed_timeout_keep ts k h n ho T :
  armed_timeout ts k h → n ≠ h → ho ≠ Some h →
  armed_timeout (<[n := T]> (cancel ho ts)) k h.
Proof.
  intros (key & d & t0 & Ht & Hk) ? ?. exists key, d, t0. split; [|done].
  by rewrite lookup_rearm, !decide_False.
Qed.

Lemma armed_interval_keep ts k h n ho T :
  armed_interval ts k h → n ≠ h → ho ≠ Some h →
  armed_interval (<[n := T]> (cancel ho ts)) k h.
Proof.
  intros (key & d & t0 & Ht & Hk) ? ?. exists key, d, t0. split; [|done].
  by rewrite lookup_rearm, !decide_False.
Qed.

Lemma armed_timeout_is_Some ts k h : armed_timeout ts k h → is_Some (ts !! h).
Proof. intros (? & ? & ? & -> & _). eauto. Qed.

Lemma armed_interval_is_Some ts k h : armed_interval ts k h → is_Some (ts !! h).
Proof. intros (? & ? & ? & -> & _). eauto. Qed.

Lemma rearm_expiration_inv key delay record st :
  store_inv st →
  prop_get (ToPropertyKey key) (_cache st) = Some record →
  delay ≠ VUndefined →
  store_inv (rearm_expiration key delay record st).
Proof.
  intros [Hnd Hfresh Hown Hexp Href Hdur] Hrec Hdelay. unfold rearm_expiration.
  set (k := ToPropertyKey key) in *. set (n := next_handle st).
  assert (Hn : ∀ h, is_Some (timers st !! h) → n ≠ h).
  { intros h Hh%Hfresh. unfold n. lia. }
  constructor; simpl.
  - by apply prop_set_NoDup.
  - intros h. rewrite lookup_rearm. repeat case_decide; subst.
    + lia.
    + intros [? ?]; done.
    + intros Hh%Hfresh. fold n in Hh. lia.
  - intros h t. rewrite lookup_rearm. repeat case_decide; subst; try done.
    + intros [= <-]. split; [done|]. simpl. fold k.
      eexists. rewrite prop_get_set, decide_True by done. done.
    + intros Ht. eapply timer_owned_set; [exact Hrec| |by apply Hown].
      intros r1 [= <-]. simpl. split; [congruence|done].
  - intros k' r h. rewrite prop_get_set. case_decide; subst.
    + intros [= <-]. simpl. intros [= <-].
      exists key, delay, (now st). by rewrite lookup_insert_eq.
    + intros Hr Hh. pose proof (Hexp _ _ _ Hr Hh) as Ha.
      apply armed_timeout_keep; [done|..].
      * apply Hn. by eapply armed_timeout_is_Some.
      * intros Hh'. pose proof (Hexp _ _ _ Hrec Hh').
        by eapply H, armed_timeout_key.
  - intros k' r h. rewrite prop_get_set. case_decide; subst.
    + intros [= <-]. simpl. intros Hh.
      pose proof (Href _ _ _ Hrec Hh) as Ha.
      apply armed_interval_keep; [done|..].
      * apply Hn. by eapply armed_interval_is_Some.
      * intros Hh'. pose proof (Hexp _ _ _ Hrec Hh').
        by eapply armed_kinds_differ.
    + intros Hr Hh. pose proof (Href _ _ _ Hr Hh) as Ha.
      apply armed_interval_keep; [done|..].
      * apply Hn. by eapply armed_interval_is_Some.
      * intros Hh'. pose proof (Hexp _ _ _ Hrec Hh').
        by eapply armed_kinds_differ.
  - intros k' r. rewrite prop_get_set. case_decide; subst.
    + intros [= <-]. simpl. split; intros; congruence.
    + apply Hdur.
Qed.

Lemma rearm_refresh_inv key delay record st :
  store_inv st →
  prop_get (ToPropertyKey key) (_cache st) = Some record →
  store_inv (rearm_refresh key delay record st).
Proof.
  intros [Hnd Hfresh Hown Hexp Href Hdur] Hrec. unfold rearm_refresh.
  set (k := ToPropertyKey key) in *. set (n := next_handle st).
  assert (Hn : ∀ h, is_Some (timers st !! h) → n ≠ h).
  { intros h Hh%Hfresh. unfold n. lia. }
  constructor; simpl.
  - by apply prop_set_NoDup.
  - intros h. rewrite lookup_rearm. repeat case_decide; subst.
    + lia.
    + intros [? ?]; done.
    + intros Hh%Hfresh. fold n in Hh. lia.
  - intros h t. rewrite lookup_rearm. repeat case_decide; subst; try done.
    + intros [= <-]. split; [done|]. simpl. fold k.
      eexists. rewrite prop_get_set, decide_True by done. done.
    + intros Ht. eapply timer_owned_set; [exact Hrec| |by apply Hown].
      intros r1 [= <-]. simpl. split; [done|congruence].
  - intros k' r h. rewrite prop_get_set. case_decide; subst.
    + intros [= <-]. simpl. intros Hh.
      pose proof (Hexp _ _ _ Hrec Hh) as Ha.
      apply armed_timeout_keep; [done|..].
      * apply Hn. by eapply armed_timeout_is_Some.
      * intros Hh'. pose proof (Href _ _ _ Hrec Hh').
        by eapply armed_kinds_differ.
    + intros Hr Hh. pose proof (Hexp _ _ _ Hr Hh) as Ha.
      apply armed_timeout_keep; [done|..].
      * apply Hn. by eapply armed_timeout_is_Some.
      * intros Hh'. pose proof (Href _ _ _ Hrec Hh').
        by eapply armed_kinds_differ.
  - intros k' r h. rewrite prop_get_set. case_decide; subst.
    + intros [= <-]. simpl. intros [= <-].
      exists key, delay, (now st). by rewrite lookup_insert_eq.
    + intros Hr Hh. pose proof (Href _ _ _ Hr Hh) as Ha.
      apply armed_interval_keep; [done|..].
      * apply Hn. by eapply armed_interval_is_Some.
      * intros Hh'. pose proof (Href _ _ _ Hrec Hh').
        by eapply H, armed_interval_key.
  - intros k' r. rewrite prop_get_set. case_decide; subst.
    + intros [= <-]. simpl. by apply Hdur with k.
    + apply Hdur.
Qed.

Lemma lookup_cancel2_Some ho1 ho2 ts h t :
  cancel ho2 (cancel ho1 ts) !! h = Some t ↔
  ho1 ≠ Some h ∧ ho2 ≠ Some h ∧ ts !! h = Some t.
Proof. rewrite !cancel_lookup_Some. tauto. Qed.

Lemma remove_inv key record st :
  store_inv st →
  prop_get (ToPropertyKey key) (_cache st) = Some record →
  store_inv (remove key record st).
Proof.
  intros [Hnd Hfresh Hown Hexp Href Hdur] Hrec. unfold remove.
  set (k := ToPropertyKey key) in *.
  constructor; simpl.
  - by apply prop_delete_NoDup.
  - intros h [t (_ & _ & Ht)%lookup_cancel2_Some]. apply Hfresh. eauto.
  - intros h t (He & Hr & Ht)%lookup_cancel2_Some.
    specialize (Hown h t Ht). unfold timer_owned in *.
    destruct (t_cb t) as [key'|key']; destruct Hown as [Hk (r & Hget & Hh)];
      (split; [done|]); exists r; (split; [|done]);
      rewrite prop_get_delete; case_decide as Hkk; try done;
      fold k in Hget; rewrite <- Hkk in Hget; congruence.
  - intros k' r h. rewrite prop_get_delete. case_decide as Hkk; [done|].
    intros Hr Hh. destruct (Hexp _ _ _ Hr Hh) as (key' & d & t0 & Ht & Hk').
    exists key', d, t0. split; [|done].
    apply lookup_cancel2_Some. split_and!; [| |done].
    + intros Hh'. apply Hkk.
      eapply armed_timeout_key; [exact (Hexp _ _ _ Hrec Hh')|]. by exists key', d, t0.
    + intros Hh'. eapply armed_kinds_differ; [|exact (Href _ _ _ Hrec Hh')].
      by exists key', d, t0.
  - intros k' r h. rewrite prop_get_delete. case_decide as Hkk; [done|].
    intros Hr Hh. destruct (Href _ _ _ Hr Hh) as (key' & d & t0 & Ht & Hk').
    exists key', d, t0. split; [|done].
    apply lookup_cancel2_Some. split_and!; [| |done].
    + intros Hh'. eapply armed_kinds_differ; [exact (Hexp _ _ _ Hrec Hh')|].
      by exists key', d, t0.
    + intros Hh'. apply Hkk.
      eapply armed_interval_key; [exact (Href _ _ _ Hrec Hh')|]. by exists key', d, t0.
  - intros k' r. rewrite prop_get_delete. case_decide; [done|]. apply Hdur.
Qed.

(** Changes that leave the cache and the timers alone. *)
Lemma store_inv_ext st st' :
  _cache st' = _cache st → timers st' = timers st → next_handle st' = next_handle st →
  store_inv st → store_inv st'.
Proof.
  intros Hc Ht Hn [Hnd Hfresh Hown Hexp Href Hdur].
  constructor; rewrite ?Hc, ?Ht, ?Hn; assumption.
Qed.

Lemma init_inv : store_inv init.
Proof.
  constructor; simpl; try done.
  - constructor.
  - intros h [t Ht]. by rewrite lookup_empty in Ht.
Qed.

(** ** What each method does to the state *)

Lemma del_run key st :
  del key st =
    match prop_get (ToPropertyKey key) (_cache st) with
    | Some record => Ok true (remove key record st)
    | None => Ok false st
    end.
Proof.
  unfold del, cache_read, mbind, M_bind.
  destruct (prop_get (ToPropertyKey key) (_cache st)) as [r|]; [|done].
  simpl. unfold remove. by destruct (r_expirationTimeout r), (r_refreshInterval r).
Qed.

Lemma get_run key st :
  get key st =
    match prop_get (ToPropertyKey key) (_cache st) with
    | Some record =>
        Ok (r_value record)
          (if decide (r_duration record ≠ VUndefined ∧ _resetExpiryOnAccess st = true)
           then rearm_expiration key (r_duration record) record st
           else st)
    | None => Ok VNull st
    end.
Proof.
  unfold get, cache_read, mbind, M_bind.
  destruct (prop_get (ToPropertyKey key) (_cache st)) as [r|]; [|done].
  unfold read_flag.
  destruct (_resetExpiryOnAccess st) eqn:Hflag; destruct (r_duration r) eqn:Hd;
    simpl; try done; unfold rearm_expiration, set_expirationTimeout, set_duration;
    rewrite ?Hd;
    try (rewrite decide_True by (split; done));
    try (rewrite decide_False by (intros [? ?]; done)); try done;
    by destruct (r_expirationTimeout r).
Qed.

Lemma prop_set_set {V} k (v1 v2 : V) o :
  prop_set k v2 (prop_set k v1 o) = prop_set k v2 o.
Proof.
  induction o as [|[k0 v0] o IH]; simpl.
  - by rewrite decide_True.
  - case_decide; simpl.
    + by rewrite decide_True.
    + rewrite decide_False by done. by rewrite IH.
Qed.

Lemma supplied_undefined v :
  negb (bool_decide (typeof v = "undefined")) = if decide (v = VUndefined) then false else true.
Proof. by destruct v. Qed.

Lemma put_run key value duration refreshInterval st :
  put key value duration refreshInterval st =
    if not_positive_number duration then
      Throw (Error "Expiration time must be a positive number") st
    else if not_positive_number refreshInterval then
      Throw (Error "Refresh time must be a positive number") st
    else Ok value (put_state key value duration refreshInterval st).
Proof.
  unfold put, put_state.
  destruct (not_positive_number duration); [done|].
  destruct (not_positive_number refreshInterval); [done|].
  unfold cache_read, mbind, M_bind. rewrite !supplied_undefined.
  unfold store_value, rearm_expiration, rearm_refresh.
  destruct (prop_get (ToPropertyKey key) (_cache st)) as [r|];
    repeat case_decide; simpl; rewrite ?prop_set_set; try done;
    try (by destruct (r_expirationTimeout r), (r_refreshInterval r)).
Qed.

(** The two checks of a call of [put], in the goal or in a hypothesis: the
    calls that throw are dismissed, the call that returns is left. *)
Ltac run_put :=
  rewrite put_run;
  repeat match goal with
  | |- context [if not_positive_number ?v then _ else _] =>
      destruct (not_positive_number v); [done|]
  end.

Ltac run_put_in H :=
  rewrite put_run in H;
  repeat match type of H with
  | context [if not_positive_number ?v then _ else _] =>
      destruct (not_positive_number v); [done|]
  end.

Lemma put_state_inv key value duration refreshInterval st :
  store_inv st → store_inv (put_state key value duration refreshInterval st).
Proof.
  intros Hinv. unfold put_state.
  pose proof (store_value_inv key value st Hinv) as H1.
  set (record1 := set_value value _) in *.
  assert (Hget1 : prop_get (ToPropertyKey key) (_cache (store_value key value st)) = Some record1).
  { unfold store_value. simpl. by rewrite prop_get_set, decide_True. }
  destruct (decide (duration = VUndefined)) as [Hd|Hd].
  - destruct (decide (refreshInterval = VUndefined)); [done|].
    by apply rearm_refresh_inv.
  - pose proof (rearm_expiration_inv key duration record1 _ H1 Hget1 Hd) as H2.
    destruct (decide (refreshInterval = VUndefined)); [done|].
    apply rearm_refresh_inv; [done|].
    unfold rearm_expiration. simpl. by rewrite prop_get_set, decide_True.
Qed.

Lemma cancel_records_lookup c ks ts h t :
  cancel_records c ks ts !! h = Some t →
  ts !! h = Some t ∧
  ∀ k r, k ∈ ks → prop_get k c = Some r →
    r_expirationTimeout r ≠ Some h ∧ r_refreshInterval r ≠ Some h.
Proof.
  unfold cancel_records. revert ts. induction ks as [|k ks IH]; intros ts; simpl.
  - intros ?. split; [done|]. intros ? ? []%elem_of_nil.
  - intros [Hts Hks]%IH. destruct (prop_get k c) as [r|] eqn:E.
    + apply lookup_cancel2_Some in Hts as (? & ? & ?). split; [done|].
      intros k' r' [->|?]%elem_of_cons; [|by eauto].
      intros ?; by simplify_eq.
    + split; [done|]. intros k' r' [->|?]%elem_of_cons; [congruence|by eauto].
Qed.

Lemma clear_loop c ks st :
  _cache st = c → (∀ k, k ∈ ks → is_Some (prop_get k c)) →
  forEach ks (λ key,
    oldRecord ← cache_read (VStr key);
    match oldRecord with
    | Some oldRecord =>
        clearTimeout (r_expirationTimeout oldRecord);;
        clearInterval (r_refreshInterval oldRecord)
    | None => throw TypeError
    end) st = Ok () (with_timers (cancel_records c ks (timers st)) st).
Proof.
  revert st. induction ks as [|k ks IH]; intros st Hc Hks.
  - by destruct st.
  - simpl. unfold mbind, M_bind, cache_read at 1. simpl. rewrite Hc.
    destruct (Hks k) as [r Hr]; [by left|]. rewrite Hr.
    assert (∀ k, k ∈ ks → is_Some (prop_get k c)) as Hks' by (intros; apply Hks; by right).
    destruct (r_expirationTimeout r) as [he|], (r_refreshInterval r) as [hr|]; simpl;
      rewrite IH by done; by destruct st.
Qed.

Lemma clear_run st :
  clear st =
    Ok () (mkState [] (_resetExpiryOnAccess st)
             (cancel_records (_cache st) (Object_keys (_cache st)) (timers st))
             (next_handle st) (now st) (emitted st)).
Proof.
  unfold clear, keys, mbind, M_bind.
  rewrite (clear_loop (_cache st)); [done..|].
  intros k Hk. unfold Object_keys in Hk. rewrite elem_of_own_keys in Hk.
  by apply prop_get_is_Some.
Qed.

Lemma cancel_records_all st :
  store_inv st →
  cancel_records (_cache st) (Object_keys (_cache st)) (timers st) = ∅.
Proof.
  intros [Hnd Hfresh Hown Hexp Href Hdur]. apply map_eq. intros h.
  rewrite lookup_empty.
  destruct (cancel_records _ _ _ !! h) as [t|] eqn:E; [|done]. exfalso.
  apply cancel_records_lookup in E as [Ht Hks].
  specialize (Hown h t Ht). unfold timer_owned in Hown.
  destruct (t_cb t) as [key|key]; destruct Hown as [_ (r & Hr & Hh)];
    (destruct (Hks (ToPropertyKey key) r); [|done..]);
    unfold Object_keys; rewrite elem_of_own_keys; apply prop_get_is_Some; eauto.
Qed.

Lemma clear_inv st : store_inv st → store_inv (state_of (clear st)).
Proof.
  intros Hinv. rewrite clear_run. simpl. rewrite cancel_records_all by done.
  constructor; simpl; try done.
  - constructor.
  - intros h [t Ht]. by rewrite lookup_empty in Ht.
Qed.

(** An expiration timer that belongs to a record runs: one event, and the
    record is removed. *)
Lemma fire_expiry_run h key delay t0 record st :
  timers st !! h = Some (mkTimer Timeout (ExpiryCb key) delay t0) →
  prop_get (ToPropertyKey key) (_cache st) = Some record →
  r_expirationTimeout record = Some h →
  fire h st = Ok () (add_event (mkEvent "expiry" key (r_value record)) (remove key record st)).
Proof.
  intros Ht Hr Hh. unfold fire. rewrite Ht. simpl.
  unfold mbind, M_bind, cache_read. simpl. rewrite Hr. simpl.
  rewrite del_run. simpl. rewrite Hr. unfold remove, add_event. simpl.
  rewrite Hh. simpl. by rewrite delete_delete_eq.
Qed.

(** A refresh timer whose key is present runs: one event, and the timer is
    armed again. *)
Lemma fire_refresh_run h key delay t0 record st :
  timers st !! h = Some (mkTimer Interval (RefreshCb key) delay t0) →
  prop_get (ToPropertyKey key) (_cache st) = Some record →
  fire h st =
    Ok () (add_event (mkEvent "refresh" key (r_value record))
             (with_timers (<[h := mkTimer Interval (RefreshCb key) delay (now st)]> (timers st)) st)).
Proof.
  intros Ht Hr. unfold fire. rewrite Ht. simpl.
  unfold mbind, M_bind, cache_read. simpl. by rewrite Hr.
Qed.

Lemma add_event_inv e st : store_inv st → store_inv (add_event e st).
Proof. by apply store_inv_ext. Qed.

Lemma refire_inv h key delay t0 t1 st :
  store_inv st →
  timers st !! h = Some (mkTimer Interval (RefreshCb key) delay t0) →
  store_inv (with_timers (<[h := mkTimer Interval (RefreshCb key) delay t1]> (timers st)) st).
Proof.
  intros [Hnd Hfresh Hown Hexp Href Hdur] Ht.
  constructor; simpl; try done.
  - intros h'. rewrite lookup_insert. case_decide; subst; [|by apply Hfresh].
    intros _. apply Hfresh. eauto.
  - intros h' t. rewrite lookup_insert. case_decide; subst; [|by apply Hown].
    intros [= <-]. apply (Hown _ _ Ht).
  - intros k r h' Hr Hh. destruct (Hexp _ _ _ Hr Hh) as (key' & d & t2 & Ht' & Hk).
    exists key', d, t2. split; [|done].
    rewrite lookup_insert_ne; [done|]. intros ->. congruence.
  - intros k r h' Hr Hh. destruct (Href _ _ _ Hr Hh) as (key' & d & t2 & Ht' & Hk).
    destruct (decide (h = h')) as [->|].
    + exists key, delay, t1. rewrite lookup_insert_eq. split; [done|]. congruence.
    + exists key', d, t2. by rewrite lookup_insert_ne.
Qed.

(** In a state that satisfies the invariant a timer callback never throws. *)
Lemma fire_run h st :
  store_inv st →
  fire h st =
    match timers st !! h with
    | None => Ok () st
    | Some t =>
        match prop_get (ToPropertyKey (cb_key (t_cb t))) (_cache st) with
        | Some record =>
            match t_cb t with
            | ExpiryCb key =>
                Ok () (add_event (mkEvent "expiry" key (r_value record))
                         (remove key record st))
            | RefreshCb key =>
                Ok () (add_event (mkEvent "refresh" key (r_value record))
                         (with_timers
                            (<[h := mkTimer Interval (RefreshCb key) (t_delay t) (now st)]>
                               (timers st)) st))
            end
        | None => Throw TypeError st
        end
    end
  ∧ (∀ t, timers st !! h = Some t →
       is_Some (prop_get (ToPropertyKey (cb_key (t_cb t))) (_cache st))).
Proof.
  intros Hinv. destruct (timers st !! h) as [t|] eqn:Ht.
  2:{ split; [|done]. unfold fire. by rewrite Ht. }
  pose proof (inv_owned st Hinv h t Ht) as Hown. unfold timer_owned in Hown.
  destruct t as [kind cb delay t0]. simpl in *.
  destruct cb as [key|key]; destruct Hown as [-> (r & Hr & Hh)]; simpl; rewrite Hr.
  - split; [|intros ? [= <-]; simpl; eauto]. by eapply fire_expiry_run.
  - split; [|intros ? [= <-]; simpl; eauto]. by eapply fire_refresh_run.
Qed.

Lemma fire_inv h st : store_inv st → store_inv (state_of (fire h st)).
Proof.
  intros Hinv. destruct (fire_run h st Hinv) as [-> _].
  destruct (timers st !! h) as [t|] eqn:Ht; [|done].
  pose proof (inv_owned st Hinv h t Ht) as Hown. unfold timer_owned in Hown.
  destruct t as [kind cb delay t0]. simpl in *.
  destruct cb as [key|key]; destruct Hown as [-> (r & Hr & Hh)]; simpl; rewrite Hr; simpl.
  - by apply add_event_inv, remove_inv.
  - apply add_event_inv. by eapply refire_inv.
Qed.

(** ** Runs of the program *)

Lemma trace_app st1 l1 st2 l2 st3 :
  trace st1 l1 st2 → trace st2 l2 st3 → trace st1 (l1 ++ l2) st3.
Proof. induction 1; simpl; [done|]. intros. constructor; auto. Qed.

Lemma reachable_init : reachable init.
Proof. exists []. constructor. Qed.

Lemma reachable_trace st l st' : reachable st → trace st l st' → reachable st'.
Proof. intros [l0 H0] H. exists (l0 ++ l). by eapply trace_app. Qed.

Lemma reachable_exec a st : reachable st → enabled a st → reachable (exec a st).
Proof.
  intros Hr He. eapply reachable_trace; [done|].
  constructor; [done|]. constructor.
Qed.

Lemma exec_inv a st : store_inv st → store_inv (exec a st).
Proof.
  intros Hinv. destruct a; simpl.
  - run_put.
    by apply put_state_inv.
  - rewrite get_run.
    destruct (prop_get (ToPropertyKey key) (_cache st)) as [r|] eqn:Hr; [|done].
    simpl. case_decide as Hd; [|done]. destruct Hd as [Hd _].
    by apply rearm_expiration_inv.
  - rewrite del_run.
    destruct (prop_get (ToPropertyKey key) (_cache st)) as [r|] eqn:Hr; [|done].
    by apply remove_inv.
  - by apply clear_inv.
  - destruct shouldResetExpiry; simpl; try done; by apply store_inv_ext with st.
  - done.
  - done.
  - by apply fire_inv.
  - by apply store_inv_ext with st.
Qed.

Lemma trace_inv st l st' : trace st l st' → store_inv st → store_inv st'.
Proof. induction 1; [done|]. intros. by apply IHtrace, exec_inv. Qed.

Lemma reachable_inv st : reachable st → store_inv st.
Proof. intros [l H]. eapply trace_inv; [done | apply init_inv]. Qed.

(** ** Writing to a key that is present *)

Lemma inv_next_free st : store_inv st → timers st !! next_handle st = None.
Proof.
  intros Hinv. destruct (timers st !! next_handle st) eqn:E; [|done].
  assert (next_handle st < next_handle st)%nat; [|lia].
  apply (inv_fresh st Hinv). eexists. exact E.
Qed.

Lemma inv_expiration_lt st k r h :
  store_inv st → prop_get k (_cache st) = Some r → r_expirationTimeout r = Some h →
  (h < next_handle st)%nat.
Proof.
  intros Hinv Hr Hh. apply (inv_fresh st Hinv).
  eapply armed_timeout_is_Some. by eapply inv_expiration.
Qed.

Lemma inv_refresh_lt st k r h :
  store_inv st → prop_get k (_cache st) = Some r → r_refreshInterval r = Some h →
  (h < next_handle st)%nat.
Proof.
  intros Hinv Hr Hh. apply (inv_fresh st Hinv).
  eapply armed_interval_is_Some. by eapply inv_refresh.
Qed.

Lemma inv_handles_differ st k r h :
  store_inv st → prop_get k (_cache st) = Some r →
  r_expirationTimeout r = Some h → r_refreshInterval r = Some h → False.
Proof.
  intros Hinv Hr He Hi. eapply armed_kinds_differ.
  - by eapply inv_expiration.
  - by eapply inv_refresh.
Qed.

(** C1. A write to a key that is present, with arguments that pass the
    checks, returns and stores the value whatever else is supplied.  For
    each of the two timers independently: when its argument is supplied the
    timer the record held is cancelled and a new one is armed for that
    delay at the time of the call; when its argument is omitted the record
    keeps its handle and the timer keeps its entry in the table (its delay
    and the time at which it was armed), and the clock is not moved. *)
Theorem put_updates_present_key key value duration refreshInterval record st :
  reachable st →
  prop_get (ToPropertyKey key) (_cache st) = Some record →
  not_positive_number duration = false →
  not_positive_number refreshInterval = false →
  ∃ st' record',
    put key value duration refreshInterval st = Ok value st' ∧
    prop_get (ToPropertyKey key) (_cache st') = Some record' ∧
    r_value record' = value ∧
    now st' = now st ∧
    (if decide (duration = VUndefined) then
       r_duration record' = r_duration record ∧
       timer_kept (r_expirationTimeout record) (r_expirationTimeout record') st st'
     else
       r_duration record' = duration ∧
       timer_replaced Timeout (ExpiryCb key) duration
         (r_expirationTimeout record) (r_expirationTimeout record') st st') ∧
    (if decide (refreshInterval = VUndefined) then
       timer_kept (r_refreshInterval record) (r_refreshInterval record') st st'
     else
       timer_replaced Interval (RefreshCb key) refreshInterval
         (r_refreshInterval record) (r_refreshInterval record') st st').
Proof.
  intros Hinv%reachable_inv Hrec Hd Hr.
  pose proof (inv_next_free st Hinv) as Hfree.
  assert (Hlt : ∀ h, r_expirationTimeout record = Some h ∨ r_refreshInterval record = Some h →
                     (h < next_handle st)%nat).
  { intros h [?|?]; [by eapply inv_expiration_lt | by eapply inv_refresh_lt]. }
  assert (Hne : ∀ h, r_expirationTimeout record = Some h → r_refreshInterval record ≠ Some h).
  { intros h ? ?. by eapply inv_handles_differ. }
  rewrite put_run, Hd, Hr. unfold put_state, store_value. rewrite Hrec. simpl.
  unfold timer_kept, timer_replaced.
  destruct (decide (duration = VUndefined)), (decide (refreshInterval = VUndefined));
    eexists _, _; (split; [reflexivity|]); simpl;
    rewrite ?prop_get_set, ?decide_True by done; (split; [reflexivity|]); simpl.
  - split_and!; done.
  - split_and!; try done.
    + intros h Hh. rewrite lookup_rearm.
      pose proof (Hlt h (or_introl Hh)). pose proof (Hne h Hh).
      rewrite !decide_False; [done|done|lia].
    + intros h Hh. rewrite lookup_rearm.
      pose proof (Hlt h (or_intror Hh)).
      rewrite decide_False by lia. by rewrite decide_True.
    + eexists. split_and!; [done|done|]. by rewrite lookup_insert_eq.
  - split_and!; try done.
    + intros h Hh. rewrite lookup_rearm.
      pose proof (Hlt h (or_introl Hh)).
      rewrite decide_False by lia. by rewrite decide_True.
    + eexists. split_and!; [done|done|]. by rewrite lookup_insert_eq.
    + intros h Hh. rewrite lookup_rearm.
      pose proof (Hlt h (or_intror Hh)).
      assert (r_expirationTimeout record ≠ Some h) by (intros ?; by eapply Hne).
      rewrite !decide_False; [done|done|lia].
  - split_and!; try done.
    + intros h Hh. rewrite !lookup_rearm.
      pose proof (Hlt h (or_introl Hh)). pose proof (Hne h Hh).
      rewrite (decide_False (P := S _ = h)) by lia.
      rewrite (decide_False (P := r_refreshInterval record = Some h)) by done.
      rewrite decide_False by lia. by rewrite decide_True.
    + eexists. split_and!; [done|done|]. rewrite !lookup_rearm.
      rewrite (decide_False (P := S _ = _)) by lia.
      rewrite decide_False; [by rewrite decide_True|].
      intros Hh. pose proof (Hlt _ (or_intror Hh)). lia.
    + intros h Hh. rewrite lookup_rearm.
      pose proof (Hlt h (or_intror Hh)).
      rewrite decide_False by lia. by rewrite decide_True.
    + eexists. split_and!; [done| |by rewrite lookup_insert_eq].
      pose proof (inv_fresh st Hinv (S (next_handle st))) as Hf.
      destruct (timers st !! S (next_handle st)) eqn:E; [|done].
      assert (S (next_handle st) < next_handle st)%nat; [|lia].
      apply Hf. by eexists.
Qed.

(** ** Handles are never handed out twice *)

Lemma cancel_lookup_None ho ts (h : Handle) : ts !! h = None → cancel ho ts !! h = None.
Proof. intros H. rewrite cancel_lookup. by case_decide. Qed.

Lemma cancel_records_lookup_None c ks ts (h : Handle) :
  ts !! h = None → cancel_records c ks ts !! h = None.
Proof.
  intros H. destruct (cancel_records c ks ts !! h) eqn:E; [|done].
  apply cancel_records_lookup in E as [E _]. congruence.
Qed.

Lemma rearm_lookup_None ts (n h : Handle) ho T :
  (h < n)%nat → ts !! h = None → <[n := T]> (cancel ho ts) !! h = None.
Proof.
  intros Hlt H. rewrite lookup_insert_ne by lia. by apply cancel_lookup_None.
Qed.

Lemma put_state_spent key value duration refreshInterval st h :
  (h < next_handle st)%nat → timers st !! h = None →
  (h < next_handle (put_state key value duration refreshInterval st))%nat ∧
  timers (put_state key value duration refreshInterval st) !! h = None.
Proof.
  intros Hlt Hh. unfold put_state, store_value, rearm_expiration, rearm_refresh.
  repeat case_decide; simpl; (split; [lia|]);
    repeat (apply rearm_lookup_None; [simpl; lia|]); done.
Qed.

(** A handle that was handed out and is no longer armed stays so. *)
Lemma exec_spent a st h :
  store_inv st →
  (h < next_handle st)%nat → timers st !! h = None →
  (h < next_handle (exec a st))%nat ∧ timers (exec a st) !! h = None.
Proof.
  intros Hinv Hlt Hh. destruct a; simpl; try done.
  - run_put.
    by apply put_state_spent.
  - rewrite get_run.
    destruct (prop_get (ToPropertyKey key) (_cache st)) as [r|]; [|done].
    simpl. case_decide; [|done]. simpl. split; [lia|].
    by apply rearm_lookup_None.
  - rewrite del_run.
    destruct (prop_get (ToPropertyKey key) (_cache st)) as [r|]; [|done].
    simpl. split; [done|]. by do 2 apply cancel_lookup_None.
  - rewrite clear_run. simpl. split; [done|]. by apply cancel_records_lookup_None.
  - by destruct shouldResetExpiry.
  - destruct (fire_run h0 st Hinv) as [-> _].
    destruct (timers st !! h0) as [t|] eqn:Ht; [|done].
    destruct (prop_get _ _) as [r|]; [|done].
    destruct (t_cb t); simpl; (split; [done|]).
    + by do 2 apply cancel_lookup_None.
    + rewrite lookup_insert_ne; [done|]. intros ->. congruence.
Qed.

Lemma trace_spent st l st' h :
  trace st l st' → store_inv st →
  (h < next_handle st)%nat → timers st !! h = None →
  timers st' !! h = None.
Proof.
  induction 1 as [|a l st st' He Htr IH]; [done|].
  intros Hinv Hlt Hh. destruct (exec_spent a st h Hinv Hlt Hh).
  apply IH; [by apply exec_inv|done..].
Qed.

(** ** One record and at most one timer of each kind per key *)

Lemma inv_one_timer_each st : store_inv st → one_timer_each st.
Proof.
  intros Hinv. split; [apply (inv_nodup st Hinv)|].
  intros h1 h2 t1 t2 H1 H2 Hkind Hkey.
  pose proof (inv_owned st Hinv h1 t1 H1) as O1.
  pose proof (inv_owned st Hinv h2 t2 H2) as O2.
  unfold timer_owned in *.
  destruct (t_cb t1), (t_cb t2); simpl in *;
    destruct O1 as [K1 (r1 & G1 & E1)], O2 as [K2 (r2 & G2 & E2)];
    congruence.
Qed.

(** C2. In every state the cache can reach there is one record per key and,
    per key, at most one armed timer of each kind; every action leads to
    such a state again.  An armed expiration timer can run: it emits one
    expiry event with the key and the value the record holds at that
    moment, the key is then gone, and the timer is never armed again. *)
Theorem entry_timers_invariant st :
  reachable st →
  one_timer_each st ∧
  (∀ a, enabled a st → one_timer_each (exec a st)) ∧
  (∀ h t, timers st !! h = Some t → t_kind t = Timeout →
     ∃ key record,
       t_cb t = ExpiryCb key ∧
       prop_get (ToPropertyKey key) (_cache st) = Some record ∧
       fire h st = Ok () (exec (AFire h) st) ∧
       emitted (exec (AFire h) st) =
         emitted st ++ [mkEvent "expiry" key (r_value record)] ∧
       prop_get (ToPropertyKey key) (_cache (exec (AFire h) st)) = None ∧
       ∀ l st', trace (exec (AFire h) st) l st' → timers st' !! h = None).
Proof.
  intros Hreach. pose proof (reachable_inv st Hreach) as Hinv.
  split_and!.
  - by apply inv_one_timer_each.
  - intros a _. by apply inv_one_timer_each, exec_inv.
  - intros h t Ht Hkind.
    pose proof (inv_owned st Hinv h t Ht) as Hown. unfold timer_owned in Hown.
    destruct t as [kind cb delay t0]. simpl in *. subst kind.
    destruct cb as [key|key]; destruct Hown as [? (r & Hr & Hh)]; [|done].
    exists key, r.
    pose proof (fire_expiry_run h key delay t0 r st Ht Hr Hh) as Hfire.
    simpl. rewrite Hfire. simpl. split_and!; try done.
    + by rewrite prop_get_delete, decide_True.
    + intros l st' Htr.
      eapply trace_spent; [exact Htr|..].
      * apply add_event_inv. by apply remove_inv.
      * simpl. apply (inv_fresh st Hinv). by eexists.
      * simpl. rewrite Hh. simpl. apply cancel_lookup_None. apply lookup_delete_eq.
Qed.

(** ** After a key has left the store *)

Lemma absent_no_timer st k :
  store_inv st → prop_get k (_cache st) = None →
  ∀ h t, timers st !! h = Some t → ToPropertyKey (cb_key (t_cb t)) ≠ k.
Proof.
  intros Hinv Habs h t Ht Hk.
  pose proof (inv_owned st Hinv h t Ht) as Hown. unfold timer_owned in Hown.
  destruct (t_cb t); simpl in *; destruct Hown as [_ (r & Hr & _)]; congruence.
Qed.

Lemma put_state_cache_other key value duration refreshInterval st k :
  ToPropertyKey key ≠ k →
  prop_get k (_cache (put_state key value duration refreshInterval st)) =
    prop_get k (_cache st).
Proof.
  intros Hk. unfold put_state, store_value, rearm_expiration, rearm_refresh.
  repeat case_decide; simpl; rewrite ?prop_get_set, ?decide_False by done; done.
Qed.

Lemma put_state_emitted key value duration refreshInterval st :
  emitted (put_state key value duration refreshInterval st) = emitted st.
Proof.
  unfold put_state, store_value, rearm_expiration, rearm_refresh.
  by repeat case_decide.
Qed.

(** An action that is not a write to [k] leaves [k] absent and emits
    nothing for it. *)
Lemma exec_absent a st k :
  store_inv st → prop_get k (_cache st) = None → ¬ writes k a →
  prop_get k (_cache (exec a st)) = None ∧
  ∃ evs, emitted (exec a st) = emitted st ++ evs ∧ Forall (λ e, ¬ event_of k e) evs.
Proof.
  intros Hinv Habs Hw.
  assert (Hnil : ∃ evs : list Event,
            emitted st = emitted st ++ evs ∧ Forall (λ e, ¬ event_of k e) evs).
  { exists []. by rewrite app_nil_r. }
  destruct a; simpl in *; try done.
  - run_put.
    simpl. rewrite put_state_emitted. by rewrite put_state_cache_other.
  - rewrite get_run.
    destruct (prop_get (ToPropertyKey key) (_cache st)) as [r|] eqn:Hr; [|done].
    simpl. case_decide; [|done]. simpl. split; [|done].
    rewrite prop_get_set, decide_False; [done|congruence].
  - rewrite del_run.
    destruct (prop_get (ToPropertyKey key) (_cache st)) as [r|] eqn:Hr; [|done].
    simpl. split; [|done]. rewrite prop_get_delete. by case_decide.
  - rewrite clear_run. by simpl.
  - by destruct shouldResetExpiry.
  - destruct (fire_run h st Hinv) as [-> _].
    destruct (timers st !! h) as [t|] eqn:Ht; [|done].
    pose proof (absent_no_timer st k Hinv Habs h t Ht) as Hk.
    destruct (prop_get (ToPropertyKey (cb_key (t_cb t))) (_cache st)) as [r|]; [|done].
    destruct (t_cb t); simpl in *.
    + split; [rewrite prop_get_delete; by case_decide|].
      eexists. split; [done|]. by repeat constructor.
    + split; [done|]. eexists. split; [done|]. by repeat constructor.
Qed.

Lemma trace_absent st l st' k :
  trace st l st' → store_inv st → prop_get k (_cache st) = None →
  Forall (λ a, ¬ writes k a) l →
  prop_get k (_cache st') = None ∧
  ∃ evs, emitted st' = emitted st ++ evs ∧ Forall (λ e, ¬ event_of k e) evs.
Proof.
  induction 1 as [st|a l st st' He Htr IH]; intros Hinv Habs Hl.
  - split; [done|]. exists []. by rewrite app_nil_r.
  - apply Forall_cons in Hl as [Ha Hl].
    destruct (exec_absent a st k Hinv Habs Ha) as (Habs' & evs1 & Hev1 & Hk1).
    destruct (IH (exec_inv a st Hinv) Habs' Hl) as (Habs'' & evs2 & Hev2 & Hk2).
    split; [done|]. exists (evs1 ++ evs2). split.
    + by rewrite Hev2, Hev1, app_assoc.
    + by apply Forall_app.
Qed.

(** C3. A key leaves the store by [del], by [clear] or when its expiration
    timer runs.  After [clear] the store counts no key, lists none, and no
    timer is armed.  From a state in which the key is absent, as long as no
    write brings it back, the key stays absent, no armed timer refers to
    it, and no event is emitted for it. *)
Theorem no_event_after_removal key st :
  reachable st →
  prop_get (ToPropertyKey key) (_cache (exec (ADel key) st)) = None ∧
  prop_get (ToPropertyKey key) (_cache (exec AClear st)) = None ∧
  (∀ h delay t0,
     timers st !! h = Some (mkTimer Timeout (ExpiryCb key) delay t0) →
     prop_get (ToPropertyKey key) (_cache (exec (AFire h) st)) = None) ∧
  (size (exec AClear st) = Ok 0%nat (exec AClear st) ∧
   keys (exec AClear st) = Ok [] (exec AClear st) ∧
   timers (exec AClear st) = ∅) ∧
  (∀ st1 l st2,
     reachable st1 → prop_get (ToPropertyKey key) (_cache st1) = None →
     trace st1 l st2 → Forall (λ a, ¬ writes (ToPropertyKey key) a) l →
     prop_get (ToPropertyKey key) (_cache st2) = None ∧
     (∀ h t, timers st2 !! h = Some t →
             ToPropertyKey (cb_key (t_cb t)) ≠ ToPropertyKey key) ∧
     ∃ evs, emitted st2 = emitted st1 ++ evs ∧
            Forall (λ e, ¬ event_of (ToPropertyKey key) e) evs).
Proof.
  intros Hreach. pose proof (reachable_inv st Hreach) as Hinv.
  split_and!.
  - simpl. rewrite del_run.
    destruct (prop_get (ToPropertyKey key) (_cache st)) as [r|] eqn:Hr; [|done].
    simpl. by rewrite prop_get_delete, decide_True.
  - simpl. by rewrite clear_run.
  - intros h delay t0 Ht.
    pose proof (inv_owned st Hinv h _ Ht) as [_ (r & Hr & Hh)].
    simpl. rewrite (fire_expiry_run h key delay t0 r st Ht Hr Hh). simpl.
    by rewrite prop_get_delete, decide_True.
  - simpl. by rewrite clear_run.
  - simpl. by rewrite clear_run.
  - simpl. rewrite clear_run. simpl. by apply cancel_records_all.
  - intros st1 l st2 Hreach1 Habs Htr Hl.
    pose proof (reachable_inv st1 Hreach1) as Hinv1.
    destruct (trace_absent st1 l st2 _ Htr Hinv1 Habs Hl) as [Habs2 Hev].
    split_and!; [done| |done].
    apply absent_no_timer; [|done]. by eapply trace_inv.
Qed.

(** ** The checks of [put] *)

Lemma not_positive_number_spec v :
  not_positive_number v = false ↔ v = VUndefined ∨ positive_number v = true.
Proof.
  destruct v as [| |b|[| | |z]|s|ref repr]; cbn.
  1: split; [intros _; by left | done].
  4: split; [intros _; by right | done].
  1-4,6-7: split; [done | intros [?|?]; done].
  change (not_positive_number (VNum (Fin z))) with (bool_decide (z <= 0)).
  rewrite bool_decide_eq_false, bool_decide_eq_true.
  split; [intros ?; right; lia | intros [?|?]; [done | lia]].
Qed.

Lemma put_state_value key value duration refreshInterval st :
  ∃ record,
    prop_get (ToPropertyKey key) (_cache (put_state key value duration refreshInterval st))
      = Some record ∧
    r_value record = value.
Proof.
  unfold put_state, store_value, rearm_expiration, rearm_refresh.
  repeat case_decide; simpl; eexists; rewrite ?prop_get_set, ?decide_True by done; done.
Qed.

(** C4, as the code has it.  [put] throws exactly when an argument that is
    supplied is not a positive number ([Infinity] counts as one), and then
    the state is the one before the call; otherwise it returns the value,
    which the record of the key now holds. *)
Theorem put_checks_arguments key value duration refreshInterval st :
  match put key value duration refreshInterval st with
  | Throw e st' =>
      ((duration ≠ VUndefined ∧ positive_number duration = false) ∨
       (refreshInterval ≠ VUndefined ∧ positive_number refreshInterval = false)) ∧
      (∃ message, e = Error message) ∧
      st' = st
  | Ok v st' =>
      (duration = VUndefined ∨ positive_number duration = true) ∧
      (refreshInterval = VUndefined ∨ positive_number refreshInterval = true) ∧
      v = value ∧
      ∃ record,
        prop_get (ToPropertyKey key) (_cache st') = Some record ∧
        r_value record = value
  end.
Proof.
  rewrite put_run.
  assert (Hbad : ∀ v, not_positive_number v = true →
                      v ≠ VUndefined ∧ positive_number v = false).
  { intros v Hv. split; [by intros ->|].
    destruct (positive_number v) eqn:P; [|done].
    assert (not_positive_number v = false); [|congruence].
    apply not_positive_number_spec. by right. }
  destruct (not_positive_number duration) eqn:Hd.
  { split_and!; [left; by apply Hbad|by eexists|done]. }
  destruct (not_positive_number refreshInterval) eqn:Hr.
  { split_and!; [right; by apply Hbad|by eexists|done]. }
  split_and!; [by apply not_positive_number_spec..|done|apply put_state_value].
Qed.

(** ** Reading back what was written *)

Lemma get_after_put key value duration refreshInterval st st1 :
  put key value duration refreshInterval st = Ok value st1 →
  ∃ st2, get key st1 = Ok value st2.
Proof.
  run_put.
  intros [= <-]. rewrite get_run.
  destruct (put_state_value key value duration refreshInterval st) as (r & -> & <-).
  eauto.
Qed.

(** C5, as the code has it.  A write followed by a read of the same key
    reads back the value written, whatever the value; the result differs
    from what a read of an absent key returns unless the value written is
    [null] itself; a read of an absent key returns [null], changes nothing
    and does not throw. *)
Theorem put_get_roundtrip key value st :
  (∃ st1 st2,
     put key value VUndefined VUndefined st = Ok value st1 ∧
     get key st1 = Ok value st2 ∧
     (value ≠ VNull → value ≠ absent_marker)) ∧
  (∀ duration refreshInterval st1,
     put key value duration refreshInterval st = Ok value st1 →
     ∃ st2, get key st1 = Ok value st2) ∧
  (prop_get (ToPropertyKey key) (_cache st) = None → get key st = Ok absent_marker st).
Proof.
  split_and!.
  - destruct (put key value VUndefined VUndefined st) as [v st1|e st1] eqn:Hput.
    2:{ rewrite put_run in Hput. done. }
    assert (v = value) as ->.
    { rewrite put_run in Hput. simpl in Hput. congruence. }
    destruct (get_after_put _ _ _ _ _ _ Hput) as [st2 Hget].
    by exists st1, st2.
  - intros. by eapply get_after_put.
  - intros Habs. rewrite get_run. by rewrite Habs.
Qed.

(** ** Reading and the expiration timer *)

(** C6. A read of a key that is present returns the value of its record.
    When the flag is set and the record has a duration, the expiration timer
    the record held is cancelled and a new one is armed at the time of the
    read for that same duration; value, duration and refresh handle of the
    record stay.  Otherwise the read changes nothing at all.  In both cases
    the interval timers are the same before and after. *)
Theorem get_resets_expiry key record st :
  reachable st →
  prop_get (ToPropertyKey key) (_cache st) = Some record →
  ∃ st',
    get key st = Ok (r_value record) st' ∧
    (∀ h t, t_kind t = Interval →
            (timers st' !! h = Some t ↔ timers st !! h = Some t)) ∧
    if decide (r_duration record ≠ VUndefined ∧ _resetExpiryOnAccess st = true) then
      ∃ record',
        prop_get (ToPropertyKey key) (_cache st') = Some record' ∧
        r_value record' = r_value record ∧
        r_duration record' = r_duration record ∧
        r_refreshInterval record' = r_refreshInterval record ∧
        now st' = now st ∧
        timer_replaced Timeout (ExpiryCb key) (r_duration record)
          (r_expirationTimeout record) (r_expirationTimeout record') st st'
    else st' = st.
Proof.
  intros Hinv%reachable_inv Hrec. rewrite get_run, Hrec.
  eexists. split; [reflexivity|].
  case_decide as Hc; [|done]. split.
  - intros h t Hkind. unfold rearm_expiration. simpl. rewrite lookup_rearm.
    repeat case_decide; subst.
    + rewrite inv_next_free by done. split; [|done]. intros [= <-]. done.
    + split; [done|]. intros Ht.
      destruct (inv_expiration st Hinv _ _ _ Hrec H0) as (? & ? & ? & Ht' & _).
      rewrite Ht in Ht'. injection Ht' as ->. done.
    + done.
  - eexists. unfold rearm_expiration. simpl.
    rewrite prop_get_set, decide_True by done.
    split; [reflexivity|]. unfold timer_replaced.
    cbn [r_value r_duration r_refreshInterval r_expirationTimeout
         set_expirationTimeout set_duration now timers].
    split_and!; try done.
    + intros h Hh. rewrite lookup_rearm.
      pose proof (inv_expiration_lt st _ _ _ Hinv Hrec Hh).
      rewrite decide_False by lia. by rewrite decide_True.
    + eexists. split_and!; [done|by apply inv_next_free|by rewrite lookup_insert_eq].
Qed.

(** ** Removing a key *)

(** C7. [del] of an absent key returns false and changes nothing.  [del] of
    a key that is present returns true: the key is gone, the other keys are
    as they were, both handles of the record are no longer armed, and no
    event was emitted.  From then on, until a write brings the key back,
    [del] of the key returns false and changes nothing. *)
Theorem del_removes_once key st :
  reachable st →
  match prop_get (ToPropertyKey key) (_cache st) with
  | None => del key st = Ok false st
  | Some record =>
      ∃ st',
        del key st = Ok true st' ∧
        prop_get (ToPropertyKey key) (_cache st') = None ∧
        (∀ k, k ≠ ToPropertyKey key → prop_get k (_cache st') = prop_get k (_cache st)) ∧
        (∀ h, r_expirationTimeout record = Some h ∨ r_refreshInterval record = Some h →
              timers st' !! h = None) ∧
        emitted st' = emitted st ∧
        ∀ l st'',
          trace st' l st'' → Forall (λ a, ¬ writes (ToPropertyKey key) a) l →
          del key st'' = Ok false st''
  end.
Proof.
  intros Hreach. pose proof (reachable_inv st Hreach) as Hinv.
  destruct (prop_get (ToPropertyKey key) (_cache st)) as [record|] eqn:Hrec.
  2:{ by rewrite del_run, Hrec. }
  exists (remove key record st). rewrite del_run, Hrec.
  assert (Habs : prop_get (ToPropertyKey key) (_cache (remove key record st)) = None).
  { simpl. by rewrite prop_get_delete, decide_True. }
  split_and!; try done.
  - intros k Hk. simpl. by rewrite prop_get_delete, decide_False.
  - intros h Hh. simpl. rewrite !cancel_lookup.
    repeat case_decide; try done. by destruct Hh.
  - intros l st'' Htr Hl.
    destruct (trace_absent _ _ _ _ Htr (remove_inv _ _ _ Hinv Hrec) Habs Hl) as [Habs'' _].
    by rewrite del_run, Habs''.
Qed.

(** ** The order of [keys()] *)

Lemma filter_all {A} (P : A → Prop) `{!∀ x, Decision (P x)} (l : list A) :
  Forall P l → filter P l = l.
Proof.
  induction 1 as [|x l Hx Hl IH]; [done|].
  by rewrite filter_cons, decide_True, IH.
Qed.

Lemma prop_set_twice_keys {V} k (v1 v2 : V) o :
  (prop_set k v2 (prop_set k v1 o)).*1 = (prop_set k v1 o).*1.
Proof.
  apply prop_set_keys_present. rewrite prop_get_set, decide_True by done. eauto.
Qed.

Lemma put_state_keys key value duration refreshInterval st :
  (_cache (put_state key value duration refreshInterval st)).*1 =
    match prop_get (ToPropertyKey key) (_cache st) with
    | Some _ => (_cache st).*1
    | None => (_cache st).*1 ++ [ToPropertyKey key]
    end.
Proof.
  assert (H1 : ∀ r, (prop_set (ToPropertyKey key) r (_cache st)).*1 =
            match prop_get (ToPropertyKey key) (_cache st) with
            | Some _ => (_cache st).*1
            | None => (_cache st).*1 ++ [ToPropertyKey key]
            end).
  { intros r. destruct (prop_get (ToPropertyKey key) (_cache st)) eqn:E.
    - apply prop_set_keys_present. eauto.
    - by apply prop_set_keys_absent. }
  unfold put_state, store_value, rearm_expiration, rearm_refresh.
  repeat case_decide; cbn [_cache with_cache]; rewrite ?prop_set_twice_keys; apply H1.
Qed.

Lemma insert_index_app_le y x A B :
  (y.1 <= x.1)%N → insert_index y (A ++ x :: B) = insert_index y A ++ x :: B.
Proof.
  intros Hy. induction A as [|a A IH]; simpl.
  - by apply N.leb_le in Hy as ->.
  - destruct (y.1 <=? a.1)%N; [done|]. by rewrite IH.
Qed.

Lemma insert_index_app_gt y A C :
  Forall (λ a, (a.1 < y.1)%N) A → insert_index y (A ++ C) = A ++ insert_index y C.
Proof.
  induction 1 as [|a A Ha _ IH]; simpl; [done|].
  apply N.leb_gt in Ha as ->. by rewrite IH.
Qed.

(** Sorting a list with one more element at its end: the new element goes
    after the elements that are not above it. *)
Lemma sort_indices_snoc l x :
  sort_indices (l ++ [x]) =
    filter (λ y, (y.1 <= x.1)%N) (sort_indices l) ++
    x :: filter (λ y, ¬ (y.1 <= x.1)%N) (sort_indices l).
Proof.
  induction l as [|y l IH]; [done|].
  cbn [app sort_indices]. rewrite IH.
  rewrite !insert_index_filter by apply sort_indices_sorted.
  destruct (decide (y.1 <= x.1)%N) as [Hy|Hy].
  - rewrite decide_False by (intros Hn; by apply Hn).
    by apply insert_index_app_le.
  - rewrite decide_True by done.
    rewrite insert_index_app_gt.
    + simpl. apply N.leb_nle in Hy as ->. done.
    + apply Forall_forall. intros a [Ha _]%list_elem_of_filter. lia.
Qed.

Lemma index_filter_names n (l : list (N * string)) :
  Forall (λ x, array_index x.2 = Some x.1) l →
  (filter (λ y, (y.1 <= n)%N) l).*2 = filter (index_at_most n) (l.*2) ∧
  (filter (λ y, ¬ (y.1 <= n)%N) l).*2 = filter (λ k, ¬ index_at_most n k) (l.*2).
Proof.
  induction 1 as [|x l Hx _ [IH1 IH2]]; [done|].
  assert (Hiff : index_at_most n x.2 ↔ (x.1 <= n)%N).
  { unfold index_at_most. by rewrite Hx. }
  rewrite fmap_cons, !filter_cons.
  destruct (decide (x.1 <= n)%N) as [Hle|Hle].
  - rewrite (decide_True (P := index_at_most n x.2)) by (by apply Hiff).
    rewrite (decide_False (P := ¬ (x.1 <= n)%N)) by (intros Hn; by apply Hn).
    rewrite (decide_False (P := ¬ index_at_most n x.2))
      by (intros Hn; apply Hn; by apply Hiff).
    rewrite fmap_cons. by rewrite IH1, IH2.
  - rewrite (decide_False (P := index_at_most n x.2)) by (by rewrite Hiff).
    rewrite (decide_True (P := ¬ (x.1 <= n)%N)) by done.
    rewrite (decide_True (P := ¬ index_at_most n x.2)) by (by rewrite Hiff).
    rewrite fmap_cons. by rewrite IH1, IH2.
Qed.

Lemma named_filter_index n ks :
  filter (index_at_most n) (named_keys ks) = [] ∧
  filter (λ k, ¬ index_at_most n k) (named_keys ks) = named_keys ks.
Proof.
  assert (H : Forall (λ k, ¬ index_at_most n k) (named_keys ks)).
  { apply Forall_forall. intros k [Hk _]%list_elem_of_filter.
    unfold index_at_most. rewrite Hk. intros []. }
  split; [|by apply filter_all].
  induction H as [|k l Hk _ IH]; [done|].
  by rewrite filter_cons, decide_False.
Qed.

(** A new name that is the array index [n] is listed after the array indices
    that are not above [n] and before everything else. *)
Lemma own_keys_index_app ks k n :
  array_index k = Some n →
  own_keys (ks ++ [k]) =
    filter (index_at_most n) (own_keys ks) ++
    k :: filter (λ k', ¬ index_at_most n k') (own_keys ks).
Proof.
  intros Hk. unfold own_keys at 1.
  rewrite index_keys_app, index_keys_cons, Hk.
  change (index_keys []) with (@nil (N * string)).
  assert (named_keys (ks ++ [k]) = named_keys ks) as ->.
  { unfold named_keys. rewrite filter_app, filter_cons, decide_False by congruence.
    by rewrite filter_nil, app_nil_r. }
  rewrite sort_indices_snoc. cbn [fst].
  assert (Hspec : Forall (λ x, array_index x.2 = Some x.1) (sort_indices (index_keys ks))).
  { apply Forall_forall. intros x Hx. apply index_keys_spec with ks.
    by rewrite sort_indices_Permutation in Hx. }
  destruct (index_filter_names n _ Hspec) as [H1 H2].
  destruct (named_filter_index n ks) as [H3 H4].
  unfold own_keys. rewrite !filter_app, H3, H4, app_nil_r, <- H1, <- H2.
  rewrite fmap_app, fmap_cons. cbn [snd]. by rewrite <- app_assoc.
Qed.

(** C8, as the code has it.  [keys()] lists the keys that are present, each
    once: first those that are array indices, in ascending numeric order,
    then the others in the order in which they were inserted.  A write to a
    key that is present leaves the list as it is; a write of a new key that
    is not an array index appends it; a write of a new key that is the array
    index [n] puts it after the array indices not above [n] and before all
    the rest, which keep their order; [del] and an expiration take the key
    out and keep the order of the rest; [clear] empties the list; a write
    that throws and every other action leave the list as it is; the list
    of a new cache is empty. *)
Theorem keys_order st :
  reachable st →
  ∃ ks,
    keys st = Ok ks st ∧
    (∀ k, k ∈ ks ↔ is_Some (prop_get k (_cache st))) ∧
    NoDup ks ∧
    index_first ks ∧
    (∀ key value duration refreshInterval,
       match put key value duration refreshInterval st with
       | Ok _ st' =>
           keys st' =
             Ok (match prop_get (ToPropertyKey key) (_cache st),
                       array_index (ToPropertyKey key) with
                 | Some _, _ => ks
                 | None, None => ks ++ [ToPropertyKey key]
                 | None, Some n =>
                     filter (index_at_most n) ks ++
                     ToPropertyKey key :: filter (λ k, ¬ index_at_most n k) ks
                 end) st'
       | Throw _ st' => keys st' = Ok ks st'
       end) ∧
    (∀ key, keys (exec (ADel key) st) =
            Ok (filter (λ k, k ≠ ToPropertyKey key) ks) (exec (ADel key) st)) ∧
    keys (exec AClear st) = Ok [] (exec AClear st) ∧
    (∀ h key delay t0,
       timers st !! h = Some (mkTimer Timeout (ExpiryCb key) delay t0) →
       keys (exec (AFire h) st) =
         Ok (filter (λ k, k ≠ ToPropertyKey key) ks) (exec (AFire h) st)) ∧
    (∀ a, leaves_keys a st → keys (exec a st) = Ok ks (exec a st)) ∧
    keys init = Ok [] init.
Proof.
  intros Hreach. pose proof (reachable_inv st Hreach) as Hinv.
  exists (Object_keys (_cache st)).
  assert (Hdel : ∀ key r,
    Object_keys (_cache (remove key r st)) =
      filter (λ k, k ≠ ToPropertyKey key) (Object_keys (_cache st))).
  { intros key r. unfold Object_keys. simpl.
    by rewrite prop_delete_keys, own_keys_filter. }
  assert (Hkeys : ∀ s, keys s = Ok (Object_keys (_cache s)) s) by done.
  split_and!.
  - done.
  - intros k. unfold Object_keys. by rewrite elem_of_own_keys, prop_get_is_Some.
  - unfold Object_keys. rewrite own_keys_Permutation. apply (inv_nodup st Hinv).
  - apply own_keys_index_first.
  - intros key value duration refreshInterval. rewrite put_run.
    destruct (not_positive_number duration); [done|].
    destruct (not_positive_number refreshInterval); [done|].
    rewrite Hkeys. f_equal. unfold Object_keys. rewrite put_state_keys.
    destruct (prop_get (ToPropertyKey key) (_cache st)); [done|].
    destruct (array_index (ToPropertyKey key)) as [n|] eqn:Hidx.
    + by apply own_keys_index_app.
    + by apply own_keys_named_app.
  - intros key. rewrite Hkeys. f_equal. simpl. rewrite del_run.
    destruct (prop_get (ToPropertyKey key) (_cache st)) as [r|] eqn:Hr; [by apply Hdel|].
    simpl. symmetry. apply filter_all, Forall_forall.
    intros k Hk ->. unfold Object_keys in Hk. rewrite elem_of_own_keys in Hk.
    by apply prop_get_None in Hr.
  - rewrite Hkeys. f_equal. simpl. by rewrite clear_run.
  - intros h key delay t0 Ht.
    pose proof (inv_owned st Hinv h _ Ht) as [_ (r & Hr & Hh)].
    rewrite Hkeys. f_equal. simpl.
    rewrite (fire_expiry_run h key delay t0 r st Ht Hr Hh). simpl.
    apply (Hdel key r).
  - intros a Ha. rewrite Hkeys. f_equal. destruct a; simpl in *; try done.
    + rewrite get_run.
      destruct (prop_get (ToPropertyKey key) (_cache st)) as [r|] eqn:Hr; [|done].
      simpl. case_decide; [|done]. unfold Object_keys, rearm_expiration. simpl.
      f_equal. apply prop_set_keys_present. eauto.
    + by destruct shouldResetExpiry.
    + destruct (fire_run h st Hinv) as [-> _].
      destruct (timers st !! h) as [t|] eqn:Ht; [|done].
      specialize (Ha t eq_refl).
      pose proof (inv_owned st Hinv h t Ht) as Hown. unfold timer_owned in Hown.
      destruct (prop_get (ToPropertyKey (cb_key (t_cb t))) (_cache st)) as [r|]; [|done].
      destruct (t_cb t); [|done]. destruct Hown as [? _]. congruence.
  - done.
Qed.

(** ** The flag *)

Lemma put_state_flag key value duration refreshInterval st :
  _resetExpiryOnAccess (put_state key value duration refreshInterval st) =
    _resetExpiryOnAccess st.
Proof.
  unfold put_state, store_value, rearm_expiration, rearm_refresh.
  by repeat case_decide.
Qed.

Lemma exec_flag a st :
  store_inv st → ¬ sets_flag a →
  _resetExpiryOnAccess (exec a st) = _resetExpiryOnAccess st.
Proof.
  intros Hinv Ha. destruct a; simpl in *; try done.
  - run_put.
    apply put_state_flag.
  - rewrite get_run.
    destruct (prop_get (ToPropertyKey key) (_cache st)); [|done].
    simpl. by case_decide.
  - rewrite del_run. by destruct (prop_get (ToPropertyKey key) (_cache st)).
  - by rewrite clear_run.
  - destruct (fire_run h st Hinv) as [-> _].
    destruct (timers st !! h) as [t|]; [|done].
    destruct (prop_get (ToPropertyKey (cb_key (t_cb t))) (_cache st)); [|done].
    by destruct (t_cb t).
Qed.

Lemma trace_flag st l st' :
  trace st l st' → store_inv st → Forall (λ a, ¬ sets_flag a) l →
  _resetExpiryOnAccess st' = _resetExpiryOnAccess st.
Proof.
  induction 1 as [|a l st st' He Htr IH]; [done|].
  intros Hinv [Ha Hl]%Forall_cons.
  rewrite IH by (done || by apply exec_inv). by apply exec_flag.
Qed.

(** C9. [resetExpiryOnAccess] sets the flag to the boolean it is given and
    to true when it is given nothing; given anything else it throws and the
    state is the one before the call.  A new cache has the flag false, it
    stays false until [resetExpiryOnAccess] is called, and while it is
    false a read leaves every timer as it is. *)
Theorem resetExpiryOnAccess_sets_flag st :
  (∀ b, resetExpiryOnAccess (VBool b) st = Ok () (with_flag b st)) ∧
  resetExpiryOnAccess VUndefined st = Ok () (with_flag true st) ∧
  (∀ v, typeof v ≠ "undefined" → typeof v ≠ "boolean" →
        ∃ message, resetExpiryOnAccess v st = Throw (Error message) st) ∧
  _resetExpiryOnAccess init = false ∧
  (∀ l st', trace init l st' → Forall (λ a, ¬ sets_flag a) l →
            _resetExpiryOnAccess st' = false) ∧
  (_resetExpiryOnAccess st = false → ∀ key, exec (AGet key) st = st).
Proof.
  split_and!; try done.
  - intros v Hu Hb. destruct v; simpl in *; try done; by eexists.
  - intros l st' Htr Hl. by rewrite (trace_flag _ _ _ Htr init_inv Hl).
  - intros Hflag key. simpl. rewrite get_run.
    destruct (prop_get (ToPropertyKey key) (_cache st)); [|done].
    simpl. rewrite decide_False; [done|]. intros [_ ?]. congruence.
Qed.

(** ** Keys and their string form *)

Lemma prop_delete_length {V} k (v : V) o :
  NoDup o.*1 → prop_get k o = Some v → S (length (prop_delete k o)) = length o.
Proof.
  unfold prop_delete. induction o as [|[k0 v0] o IH]; [done|].
  rewrite fmap_cons, NoDup_cons, filter_cons. cbn [prop_get fst length].
  intros [Hk0 Hnd]. case_decide; subst.
  - intros _. rewrite decide_False by (intros ?; done). do 2 f_equal.
    apply filter_all, Forall_forall. intros [k1 v1] Hin Heq. simpl in Heq. subst k1.
    apply Hk0. apply list_elem_of_fmap. by exists (k, v1).
  - intros Hget. rewrite decide_True by done. cbn [length]. f_equal. by apply IH.
Qed.

Lemma Object_keys_length {V} (o : list (string * V)) :
  length (Object_keys o) = length o.
Proof. unfold Object_keys. by rewrite length_own_keys, length_fmap. Qed.

(** C10. Two keys with the same string form name the same record.  A read
    under either returns the same value and leaves the same cache, and [del]
    under either is the same call.  After a write under one: a read under
    the other returns the value written; [keys()] lists the string form
    (once, in a state the cache can reach); [del] under the other returns
    true, after which a read under the first returns null, [keys()] no
    longer lists the string form and a second [del] returns false; a write
    under the other replaces the value and leaves [keys()] and [size()] as
    they were. *)
Theorem keys_identified_by_string k1 k2 st :
  ToPropertyKey k1 = ToPropertyKey k2 →
  (∀ v st1, get k1 st = Ok v st1 → ∃ st2, get k2 st = Ok v st2 ∧ _cache st2 = _cache st1) ∧
  del k1 st = del k2 st ∧
  (∀ value duration refreshInterval st1,
     put k1 value duration refreshInterval st = Ok value st1 →
     (∃ st2, get k2 st1 = Ok value st2) ∧
     (∃ ks, keys st1 = Ok ks st1 ∧ ToPropertyKey k1 ∈ ks ∧ (reachable st → NoDup ks)) ∧
     (∃ n, size st1 = Ok (S n) st1 ∧
           ∃ st2, del k2 st1 = Ok true st2 ∧
                  get k1 st2 = Ok VNull st2 ∧
                  del k1 st2 = Ok false st2 ∧
                  (∃ ks2, keys st2 = Ok ks2 st2 ∧ ToPropertyKey k1 ∉ ks2) ∧
                  (reachable st → size st2 = Ok n st2)) ∧
     ∀ value' duration' refreshInterval' st2,
       put k2 value' duration' refreshInterval' st1 = Ok value' st2 →
       (∃ ks, keys st1 = Ok ks st1 ∧ keys st2 = Ok ks st2) ∧
       (∃ n, size st1 = Ok n st1 ∧ size st2 = Ok n st2) ∧
       ∃ st3, get k1 st2 = Ok value' st3).
Proof.
  intros Hk. split_and!.
  - intros v st1. rewrite !get_run, <- Hk.
    destruct (prop_get (ToPropertyKey k1) (_cache st)) as [r|]; [|eauto].
    intros [= <- <-]. eexists. split; [reflexivity|].
    case_decide; [|done]. unfold rearm_expiration. simpl. by rewrite Hk.
  - rewrite !del_run, Hk.
    destruct (prop_get (ToPropertyKey k2) (_cache st)); [|done].
    unfold remove. by rewrite Hk.
  - intros value duration refreshInterval st1 Hput.
    assert (Hpresent : ∃ r, prop_get (ToPropertyKey k1) (_cache st1) = Some r ∧ r_value r = value).
    { run_put_in Hput. injection Hput as <-. apply put_state_value. }
    assert (Hstep : reachable st → reachable st1).
    { intros Hreach.
      replace st1 with (exec (APut k1 value duration refreshInterval) st)
        by (simpl; by rewrite Hput).
      by apply reachable_exec. }
    destruct Hpresent as (r & Hr & Hv).
    assert (Hgone : prop_get (ToPropertyKey k1) (_cache (remove k2 r st1)) = None).
    { simpl. by rewrite prop_get_delete, Hk, decide_True. }
    split_and!.
    + rewrite get_run, <- Hk, Hr, Hv. eauto.
    + exists (Object_keys (_cache st1)). split_and!; [done| |].
      * unfold Object_keys. rewrite elem_of_own_keys. apply prop_get_is_Some. eauto.
      * intros Hreach. unfold Object_keys. rewrite own_keys_Permutation.
        apply (inv_nodup st1 (reachable_inv st1 (Hstep Hreach))).
    + assert (Hpos : length (_cache st1) ≠ 0%nat).
      { intros Hnil%length_zero_iff_nil. by rewrite Hnil in Hr. }
      exists (pred (length (_cache st1))). split.
      { unfold size. rewrite Object_keys_length. f_equal. lia. }
      exists (remove k2 r st1). split_and!.
      * by rewrite del_run, <- Hk, Hr.
      * by rewrite get_run, Hgone.
      * by rewrite del_run, Hgone.
      * exists (Object_keys (_cache (remove k2 r st1))). split; [done|].
        unfold Object_keys. rewrite elem_of_own_keys. intros Hin.
        apply prop_get_is_Some in Hin. rewrite Hgone in Hin. by destruct Hin.
      * intros Hreach. unfold size. rewrite Object_keys_length. f_equal.
        assert (S (length (_cache (remove k2 r st1))) = length (_cache st1)) as Hlen.
        { cbn [remove _cache]. eapply prop_delete_length.
          - apply (inv_nodup st1 (reachable_inv st1 (Hstep Hreach))).
          - rewrite <- Hk. exact Hr. }
        lia.
    + intros value' duration' refreshInterval' st2 Hput2.
      assert (Hkeys : Object_keys (_cache st2) = Object_keys (_cache st1)).
      { run_put_in Hput2. injection Hput2 as <-. unfold Object_keys.
        by rewrite put_state_keys, <- Hk, Hr. }
      split_and!.
      * exists (Object_keys (_cache st1)). split; [done|]. unfold keys. by rewrite Hkeys.
      * exists (length (Object_keys (_cache st1))). split; [done|].
        unfold size. by rewrite Hkeys.
      * run_put_in Hput2. injection Hput2 as <-.
        destruct (put_state_value k2 value' duration' refreshInterval' st1) as (r' & Hr' & Hv').
        rewrite get_run, Hk, Hr', Hv'. eauto.
Qed.

(** ** The fake clock runs the program *)

Lemma run_due_trace hs st : ∃ l, trace st l (state_of (run_due hs st)).
Proof.
  revert st. induction hs as [|h hs IH]; intros st.
  - exists []. constructor.
  - simpl. unfold mbind, M_bind.
    destruct (is_due st h) eqn:Hdue.
    + destruct (fire h st) as [[] st'|e st'] eqn:Hfire.
      * destruct (IH st') as [l Hl]. exists (AFire h :: l).
        constructor; [done|]. simpl. by rewrite Hfire.
      * exists [AFire h]. constructor; [done|]. simpl. rewrite Hfire. constructor.
    + apply IH.
Qed.

Lemma tick1_trace st : ∃ l, trace st l (state_of (tick1 st)).
Proof.
  unfold tick1.
  destruct (run_due_trace
              (filter (λ h, is_due (with_now (now st + 1) st) h)
                 (seq 0 (next_handle (with_now (now st + 1) st))))
              (with_now (now st + 1) st)) as [l Hl].
  exists (AWait 1 :: l). constructor; [simpl; lia|]. exact Hl.
Qed.

Lemma tick_trace ms st : ∃ l, trace st l (state_of (tick ms st)).
Proof.
  revert st. induction ms as [|ms IH]; intros st.
  - exists []. constructor.
  - simpl. unfold mbind, M_bind.
    destruct (tick1_trace st) as [l1 H1].
    destruct (tick1 st) as [[] st'|e st'] eqn:Htick; simpl in H1.
    + destruct (IH st') as [l2 H2]. exists (l1 ++ l2). by eapply trace_app.
    + by exists l1.
Qed.

Lemma tick_reachable ms st : reachable st → reachable (after (tick ms) st).
Proof.
  intros Hr. destruct (tick_trace ms st) as [l Hl]. by eapply reachable_trace.
Qed.

(** ** Runs of the test suite and of the specification *)

(** [put(k, v1, 1000)], 999 ms, [put(k, v2)]: nothing before the 1000th
    millisecond, then one expiry event with the second value. *)
Example value_only_update_keeps_expiry :
  let st1 := after (put (VStr "key") (VStr "value1") (VNum (Fin 1000)) VUndefined) init in
  let st2 := after (tick 999) st1 in
  let st3 := after (put (VStr "key") (VStr "value2") VUndefined VUndefined) st2 in
  emitted st3 = [] ∧
  emitted (after (tick 1) st3) = [mkEvent "expiry" (VStr "key") (VStr "value2")] ∧
  emitted (after (tick 1001) st3) = [mkEvent "expiry" (VStr "key") (VStr "value2")].
Proof. vm_compute. done. Qed.

(** [put(k, v1, 1000)], 999 ms, [put(k, v2, 1000)]: the expiry comes 1000 ms
    after the second write. *)
Example new_duration_restarts_expiry :
  let st1 := after (put (VStr "key") (VStr "value1") (VNum (Fin 1000)) VUndefined) init in
  let st2 := after (tick 999) st1 in
  let st3 := after (put (VStr "key") (VStr "value2") (VNum (Fin 1000)) VUndefined) st2 in
  emitted (after (tick 999) st3) = [] ∧
  emitted (after (tick 1000) st3) = [mkEvent "expiry" (VStr "key") (VStr "value2")].
Proof. vm_compute. done. Qed.

(** [put(k, v, 25, 10)]: two refresh events, the expiry, then silence. *)
Example refresh_stops_at_expiry :
  let st1 := after (put (VStr "key") (VStr "value") (VNum (Fin 25)) (VNum (Fin 10))) init in
  emitted (after (tick 50) st1) =
    [mkEvent "refresh" (VStr "key") (VStr "value");
     mkEvent "refresh" (VStr "key") (VStr "value");
     mkEvent "expiry" (VStr "key") (VStr "value")].
Proof. vm_compute. done. Qed.

(** With the flag set a read at 500 ms moves the expiry from 1000 ms to
    1500 ms; without it the expiry stays at 1000 ms. *)
Example read_restarts_countdown :
  let st1 := after (get (VStr "key")) (after (tick 500) sample_reset) in
  emitted (after (tick 999) st1) = [] ∧
  emitted (after (tick 1000) st1) = [mkEvent "expiry" (VStr "key") (VStr "value")].
Proof. vm_compute. done. Qed.

Example read_without_flag_keeps_countdown :
  let st0 := after (put (VStr "key") (VStr "value") (VNum (Fin 1000)) VUndefined) init in
  let st1 := after (get (VStr "key")) (after (tick 500) st0) in
  emitted (after (tick 499) st1) = [] ∧
  emitted (after (tick 500) st1) = [mkEvent "expiry" (VStr "key") (VStr "value")].
Proof. vm_compute. done. Qed.

(** [del] and [clear] silence the timers of the keys they remove. *)
Example del_and_clear_silence_timers :
  emitted (after (tick 2000) (after (del (VStr "key")) sample_both)) = [] ∧
  emitted (after (tick 2000) (after clear sample_both)) = [].
Proof. vm_compute. done. Qed.

(** Numbers from 1e21 on are keyed by their exponent form, and integers
    beyond 2^53 by the nearest double. *)
Example large_number_keys :
  ToPropertyKey (VNum (Fin (10 ^ 20))) = "100000000000000000000" ∧
  ToPropertyKey (VNum (Fin (10 ^ 21))) = "1e+21" ∧
  ToPropertyKey (VNum (Fin (2 ^ 53 + 1))) = "9007199254740992" ∧
  ToPropertyKey (VNum (Fin (- 2 ^ 70))) = "-1.1805916207174113e+21" ∧
  let st := state_of (put (VNum (Fin (10 ^ 21))) (VStr "v") VUndefined VUndefined init) in
  get (VStr "1e+21") st = Ok (VStr "v") st ∧
  get (VStr "1000000000000000000000") st = Ok VNull st ∧
  keys st = Ok ["1e+21"] st.
Proof. vm_compute. by split_and!. Qed.

(** ** Where the specification and the code part *)

(** C4 as the specification states it fails: [Infinity] is not a finite
    positive number, yet [put] takes it as a duration, stores the value and
    arms a timer. *)
Lemma put_accepts_Infinity :
  VNum PosInf ≠ VUndefined ∧
  spec_finite_positive (VNum PosInf) = false ∧
  ∃ st',
    put (VStr "key") (VStr "value") (VNum PosInf) VUndefined init = Ok (VStr "value") st' ∧
    prop_get "key" (_cache st') =
      Some (mkRecord (VStr "value") (VNum PosInf) (Some 0%nat) None) ∧
    timers st' !! 0%nat = Some (mkTimer Timeout (ExpiryCb (VStr "key")) (VNum PosInf) 0).
Proof.
  split_and!; [done..|].
  exists (after (put (VStr "key") (VStr "value") (VNum PosInf) VUndefined) init).
  split_and!; reflexivity.
Qed.

(** C5 as the specification states it fails: after [null] is written under
    a key, a read of that key returns what a read of an absent key
    returns. *)
Lemma get_null_like_absent :
  ∃ st1,
    put (VStr "key") VNull VUndefined VUndefined init = Ok VNull st1 ∧
    prop_get "key" (_cache st1) = Some (mkRecord VNull VUndefined None None) ∧
    prop_get "miss" (_cache st1) = None ∧
    get (VStr "key") st1 = Ok absent_marker st1 ∧
    get (VStr "miss") st1 = Ok absent_marker st1.
Proof.
  exists (after (put (VStr "key") VNull VUndefined VUndefined) init).
  split_and!; reflexivity.
Qed.

(** C8 as the specification states it fails: the new key '1', inserted
    after 'b', is listed before it. *)
Lemma keys_lists_indices_first :
  ∃ st1 st2,
    put (VStr "b") (VStr "x") VUndefined VUndefined init = Ok (VStr "x") st1 ∧
    keys st1 = Ok ["b"] st1 ∧
    prop_get "1" (_cache st1) = None ∧
    put (VStr "1") (VStr "y") VUndefined VUndefined st1 = Ok (VStr "y") st2 ∧
    keys st2 = Ok ["1"; "b"] st2 ∧
    keys st2 ≠ Ok (["b"] ++ ["1"]) st2.
Proof.
  exists (after (put (VStr "b") (VStr "x") VUndefined VUndefined) init).
  exists (after (put (VStr "1") (VStr "y") VUndefined VUndefined)
            (after (put (VStr "b") (VStr "x") VUndefined VUndefined) init)).
  split_and!; try reflexivity.
  vm_compute. intros [=].
Qed.

(** ** The theorems at sample inputs *)

Lemma sample_both_reachable : reachable sample_both.
Proof. apply reachable_exec; [apply reachable_init | exact I]. Qed.

Lemma sample_reset_reachable : reachable sample_reset.
Proof.
  apply reachable_exec; [|exact I].
  apply reachable_exec; [apply reachable_init | exact I].
Qed.

(** [put('key', 'value2', undefined, 100)] on [sample_both]: the expiration
    timer is kept, the refresh timer is replaced. *)
Lemma put_updates_present_key_witness :
  reachable sample_both ∧
  prop_get (ToPropertyKey (VStr "key")) (_cache sample_both) = Some sample_record ∧
  not_positive_number VUndefined = false ∧
  not_positive_number (VNum (Fin 100)) = false ∧
  ∃ st' record',
    put (VStr "key") (VStr "value2") VUndefined (VNum (Fin 100)) sample_both
      = Ok (VStr "value2") st' ∧
    prop_get "key" (_cache st') = Some record' ∧
    r_value record' = VStr "value2" ∧
    now st' = now sample_both ∧
    (r_duration record' = VNum (Fin 1000) ∧
     timer_kept (Some 0%nat) (r_expirationTimeout record') sample_both st') ∧
    timer_replaced Interval (RefreshCb (VStr "key")) (VNum (Fin 100))
      (Some 1%nat) (r_refreshInterval record') sample_both st'.
Proof.
  split_and!; [apply sample_both_reachable | reflexivity..|].
  apply (put_updates_present_key (VStr "key") (VStr "value2") VUndefined (VNum (Fin 100))
           sample_record sample_both);
    [apply sample_both_reachable | reflexivity..].
Defined.

Lemma entry_timers_invariant_witness :
  reachable sample_both ∧
  one_timer_each sample_both ∧
  (∀ a, enabled a sample_both → one_timer_each (exec a sample_both)) ∧
  (∀ h t, timers sample_both !! h = Some t → t_kind t = Timeout →
     ∃ key record,
       t_cb t = ExpiryCb key ∧
       prop_get (ToPropertyKey key) (_cache sample_both) = Some record ∧
       fire h sample_both = Ok () (exec (AFire h) sample_both) ∧
       emitted (exec (AFire h) sample_both) =
         emitted sample_both ++ [mkEvent "expiry" key (r_value record)] ∧
       prop_get (ToPropertyKey key) (_cache (exec (AFire h) sample_both)) = None ∧
       ∀ l st', trace (exec (AFire h) sample_both) l st' → timers st' !! h = None).
Proof.
  split; [apply sample_both_reachable|].
  apply (entry_timers_invariant sample_both). apply sample_both_reachable.
Defined.

Lemma no_event_after_removal_witness :
  reachable sample_both ∧
  prop_get "key" (_cache (exec (ADel (VStr "key")) sample_both)) = None ∧
  prop_get "key" (_cache (exec AClear sample_both)) = None ∧
  (∀ h delay t0,
     timers sample_both !! h = Some (mkTimer Timeout (ExpiryCb (VStr "key")) delay t0) →
     prop_get "key" (_cache (exec (AFire h) sample_both)) = None) ∧
  (size (exec AClear sample_both) = Ok 0%nat (exec AClear sample_both) ∧
   keys (exec AClear sample_both) = Ok [] (exec AClear sample_both) ∧
   timers (exec AClear sample_both) = ∅) ∧
  (∀ st1 l st2,
     reachable st1 → prop_get "key" (_cache st1) = None →
     trace st1 l st2 → Forall (λ a, ¬ writes "key" a) l →
     prop_get "key" (_cache st2) = None ∧
     (∀ h t, timers st2 !! h = Some t → ToPropertyKey (cb_key (t_cb t)) ≠ "key") ∧
     ∃ evs, emitted st2 = emitted st1 ++ evs ∧ Forall (λ e, ¬ event_of "key" e) evs).
Proof.
  split; [apply sample_both_reachable|].
  apply (no_event_after_removal (VStr "key") sample_both). apply sample_both_reachable.
Defined.

(** [get('key')] on [sample_reset]: the flag is set and the record has a
    duration, so the expiration timer is replaced. *)
Lemma get_resets_expiry_witness :
  reachable sample_reset ∧
  prop_get (ToPropertyKey (VStr "key")) (_cache sample_reset) =
    Some (mkRecord (VStr "value") (VNum (Fin 1000)) (Some 0%nat) None) ∧
  ∃ st',
    get (VStr "key") sample_reset = Ok (VStr "value") st' ∧
    (∀ h t, t_kind t = Interval →
            (timers st' !! h = Some t ↔ timers sample_reset !! h = Some t)) ∧
    ∃ record',
      prop_get "key" (_cache st') = Some record' ∧
      r_value record' = VStr "value" ∧
      r_duration record' = VNum (Fin 1000) ∧
      r_refreshInterval record' = None ∧
      now st' = now sample_reset ∧
      timer_replaced Timeout (ExpiryCb (VStr "key")) (VNum (Fin 1000))
        (Some 0%nat) (r_expirationTimeout record') sample_reset st'.
Proof.
  split_and!; [apply sample_reset_reachable | reflexivity |].
  apply (get_resets_expiry (VStr "key")
           (mkRecord (VStr "value") (VNum (Fin 1000)) (Some 0%nat) None) sample_reset);
    [apply sample_reset_reachable | reflexivity].
Defined.

Lemma del_removes_once_witness :
  reachable sample_both ∧
  ∃ st',
    del (VStr "key") sample_both = Ok true st' ∧
    prop_get "key" (_cache st') = None ∧
    (∀ k, k ≠ "key" → prop_get k (_cache st') = prop_get k (_cache sample_both)) ∧
    (∀ h, Some 0%nat = Some h ∨ Some 1%nat = Some h → timers st' !! h = None) ∧
    emitted st' = emitted sample_both ∧
    ∀ l st'',
      trace st' l st'' → Forall (λ a, ¬ writes "key" a) l →
      del (VStr "key") st'' = Ok false st''.
Proof.
  split; [apply sample_both_reachable|].
  apply (del_removes_once (VStr "key") sample_both). apply sample_both_reachable.
Defined.

Lemma sample_two_reachable : reachable sample_two.
Proof.
  apply reachable_exec; [|exact I].
  apply reachable_exec; [apply reachable_init | exact I].
Qed.

(** After [put('b')] and [put('a')] the list is ['b', 'a']; from there
    [put('1', 'z')] gives ['1', 'b', 'a'], [put('c', 'z')] gives
    ['b', 'a', 'c'], [put('b', 'z')] gives ['b', 'a'] and [del('b')] gives
    ['a']. *)
Lemma keys_order_witness :
  reachable sample_two ∧
  keys sample_two = Ok ["b"; "a"] sample_two ∧
  keys (exec (APut (VStr "1") (VStr "z") VUndefined VUndefined) sample_two) =
    Ok ["1"; "b"; "a"] (exec (APut (VStr "1") (VStr "z") VUndefined VUndefined) sample_two) ∧
  keys (exec (APut (VStr "c") (VStr "z") VUndefined VUndefined) sample_two) =
    Ok ["b"; "a"; "c"] (exec (APut (VStr "c") (VStr "z") VUndefined VUndefined) sample_two) ∧
  keys (exec (APut (VStr "b") (VStr "z") VUndefined VUndefined) sample_two) =
    Ok ["b"; "a"] (exec (APut (VStr "b") (VStr "z") VUndefined VUndefined) sample_two) ∧
  keys (exec (ADel (VStr "b")) sample_two) = Ok ["a"] (exec (ADel (VStr "b")) sample_two).
Proof.
  split; [apply sample_two_reachable|].
  destruct (keys_order sample_two sample_two_reachable)
    as (ks & Hks & _ & _ & _ & Hput & Hdel & _).
  assert (ks = ["b"; "a"]) as -> by (vm_compute in Hks; congruence).
  split; [reflexivity|]. split_and!.
  - exact (Hput (VStr "1") (VStr "z") VUndefined VUndefined).
  - exact (Hput (VStr "c") (VStr "z") VUndefined VUndefined).
  - exact (Hput (VStr "b") (VStr "z") VUndefined VUndefined).
  - exact (Hdel (VStr "b")).
Defined.

Lemma put_get_roundtrip_witness :
  prop_get (ToPropertyKey (VStr "miss")) (_cache sample_both) = None ∧
  get (VStr "miss") sample_both = Ok absent_marker sample_both.
Proof.
  split; [reflexivity|].
  apply (put_get_roundtrip (VStr "miss") VNull sample_both). reflexivity.
Defined.

Lemma resetExpiryOnAccess_sets_flag_witness :
  typeof (VStr "foo") ≠ "undefined" ∧
  typeof (VStr "foo") ≠ "boolean" ∧
  ∃ message, resetExpiryOnAccess (VStr "foo") sample_both = Throw (Error message) sample_both.
Proof.
  split_and!; [done..|].
  apply (resetExpiryOnAccess_sets_flag sample_both); done.
Defined.

(** The number 1 and the string '1' name the same record, and so do the
    number 1e21 and the string '1e+21'. *)
Lemma keys_identified_by_string_witness :
  ToPropertyKey (VNum (Fin 1)) = ToPropertyKey (VStr "1") ∧
  del (VNum (Fin 1)) sample_both = del (VStr "1") sample_both ∧
  (∀ value duration refreshInterval st1,
     put (VNum (Fin 1)) value duration refreshInterval sample_both = Ok value st1 →
     (∃ st2, get (VStr "1") st1 = Ok value st2) ∧
     (∃ ks, keys st1 = Ok ks st1 ∧ "1" ∈ ks ∧ (reachable sample_both → NoDup ks)) ∧
     (∃ n, size st1 = Ok (S n) st1 ∧
           ∃ st2, del (VStr "1") st1 = Ok true st2 ∧
                  get (VNum (Fin 1)) st2 = Ok VNull st2 ∧
                  del (VNum (Fin 1)) st2 = Ok false st2 ∧
                  (∃ ks2, keys st2 = Ok ks2 st2 ∧ "1" ∉ ks2) ∧
                  (reachable sample_both → size st2 = Ok n st2)) ∧
     ∀ value' duration' refreshInterval' st2,
       put (VStr "1") value' duration' refreshInterval' st1 = Ok value' st2 →
       (∃ ks, keys st1 = Ok ks st1 ∧ keys st2 = Ok ks st2) ∧
       (∃ n, size st1 = Ok n st1 ∧ size st2 = Ok n st2) ∧
       ∃ st3, get (VNum (Fin 1)) st2 = Ok value' st3) ∧
  ToPropertyKey (VNum (Fin (10 ^ 21))) = ToPropertyKey (VStr "1e+21") ∧
  del (VNum (Fin (10 ^ 21))) sample_both = del (VStr "1e+21") sample_both.
Proof.
  assert (H21 : ToPropertyKey (VNum (Fin (10 ^ 21))) = ToPropertyKey (VStr "1e+21"))
    by (vm_compute; reflexivity).
  split; [reflexivity|].
  split; [apply (keys_identified_by_string (VNum (Fin 1)) (VStr "1") sample_both eq_refl)|].
  split; [apply (keys_identified_by_string (VNum (Fin 1)) (VStr "1") sample_both eq_refl)|].
  split; [exact H21|].
  apply (keys_identified_by_string (VNum (Fin (10 ^ 21))) (VStr "1e+21") sample_both H21).
Defined.

(** * Further properties of index.js *)

(** ** The exceptions *)

Lemma fire_ok h st : store_inv st → fire h st = Ok () (state_of (fire h st)).
Proof.
  intros Hinv. destruct (fire_run h st Hinv) as [-> Hsome].
  destruct (timers st !! h) as [t|]; [|done].
  destruct (Hsome t eq_refl) as [r ->]. by destruct (t_cb t).
Qed.

(** X1. The only exceptions are the three the methods throw themselves, with
    their messages: [put] checks the duration before the refresh interval,
    [resetExpiryOnAccess] rejects what is neither undefined nor a boolean.
    No other call throws, no timer callback throws, and a call that throws
    leaves the state as it was. *)
Theorem only_validation_errors a st e :
  reachable st →
  error_of a st = Some e →
  exec a st = st ∧
  ((∃ key value duration refreshInterval,
      a = APut key value duration refreshInterval ∧
      ((not_positive_number duration = true ∧
        e = Error "Expiration time must be a positive number") ∨
       (not_positive_number duration = false ∧
        not_positive_number refreshInterval = true ∧
        e = Error "Refresh time must be a positive number"))) ∨
   (∃ v,
      a = AResetExpiryOnAccess v ∧
      typeof v ≠ "undefined" ∧ typeof v ≠ "boolean" ∧
      e = Error "Reset expiry on get flag must be a boolean")).
Proof.
  intros Hinv%reachable_inv. destruct a; simpl.
  - rewrite put_run.
    destruct (not_positive_number duration) eqn:Hd.
    { intros [= <-]. split; [done|]. left. eexists _, _, _, _. split; [done|]. by left. }
    destruct (not_positive_number refreshInterval) eqn:Hr; [|done].
    intros [= <-]. split; [done|]. left. eexists _, _, _, _. split; [done|]. by right.
  - rewrite get_run. by destruct (prop_get (ToPropertyKey key) (_cache st)).
  - rewrite del_run. by destruct (prop_get (ToPropertyKey key) (_cache st)).
  - by rewrite clear_run.
  - destruct shouldResetExpiry; simpl; try done;
      intros [= <-]; (split; [done|]); right; eexists; by split_and!.
  - done.
  - done.
  - by rewrite fire_ok.
  - done.
Qed.

Lemma only_validation_errors_witness :
  reachable sample_both ∧
  error_of (APut (VStr "key") (VStr "value") (VStr "foo") (VNum (Fin 0))) sample_both
    = Some (Error "Expiration time must be a positive number") ∧
  exec (APut (VStr "key") (VStr "value") (VStr "foo") (VNum (Fin 0))) sample_both
    = sample_both.
Proof.
  split; [apply sample_both_reachable|]. split; [reflexivity|].
  apply (only_validation_errors
           (APut (VStr "key") (VStr "value") (VStr "foo") (VNum (Fin 0))) sample_both
           (Error "Expiration time must be a positive number"));
    [apply sample_both_reachable | reflexivity].
Defined.

(** ** A refresh timer running *)

(** X2. An armed interval timer belongs to a key that is present.  When it
    runs it emits one refresh event with the key of its callback and the
    value the record holds at that moment; the cache is as it was, the timer
    stays armed with the same callback and delay, and every other timer is
    as it was. *)
Theorem refresh_emits_and_stays h t st :
  reachable st →
  timers st !! h = Some t → t_kind t = Interval →
  ∃ key record,
    t_cb t = RefreshCb key ∧
    prop_get (ToPropertyKey key) (_cache st) = Some record ∧
    fire h st = Ok () (exec (AFire h) st) ∧
    emitted (exec (AFire h) st) = emitted st ++ [mkEvent "refresh" key (r_value record)] ∧
    _cache (exec (AFire h) st) = _cache st ∧
    timers (exec (AFire h) st) !! h =
      Some (mkTimer Interval (RefreshCb key) (t_delay t) (now st)) ∧
    ∀ h', h' ≠ h → timers (exec (AFire h) st) !! h' = timers st !! h'.
Proof.
  intros Hinv%reachable_inv Ht Hkind.
  pose proof (inv_owned st Hinv h t Ht) as Hown. unfold timer_owned in Hown.
  destruct t as [kind cb delay t0]. simpl in *. subst kind.
  destruct cb as [key|key]; destruct Hown as [? (r & Hr & Hh)]; [done|].
  exists key, r. simpl.
  rewrite (fire_refresh_run h key delay t0 r st Ht Hr). simpl.
  split_and!; try done.
  - by rewrite lookup_insert_eq.
  - intros h' Hne. by rewrite lookup_insert_ne.
Qed.

Lemma refresh_emits_and_stays_witness :
  reachable sample_both ∧
  timers sample_both !! 1%nat =
    Some (mkTimer Interval (RefreshCb (VStr "key")) (VNum (Fin 10)) 0) ∧
  ∃ key record,
    RefreshCb (VStr "key") = RefreshCb key ∧
    prop_get (ToPropertyKey key) (_cache sample_both) = Some record ∧
    fire 1%nat sample_both = Ok () (exec (AFire 1%nat) sample_both) ∧
    emitted (exec (AFire 1%nat) sample_both) =
      emitted sample_both ++ [mkEvent "refresh" key (r_value record)] ∧
    _cache (exec (AFire 1%nat) sample_both) = _cache sample_both ∧
    timers (exec (AFire 1%nat) sample_both) !! 1%nat =
      Some (mkTimer Interval (RefreshCb key) (VNum (Fin 10)) (now sample_both)) ∧
    ∀ h', h' ≠ 1%nat →
          timers (exec (AFire 1%nat) sample_both) !! h' = timers sample_both !! h'.
Proof.
  split; [apply sample_both_reachable|]. split; [reflexivity|].
  apply (refresh_emits_and_stays 1%nat
           (mkTimer Interval (RefreshCb (VStr "key")) (VNum (Fin 10)) 0) sample_both);
    [apply sample_both_reachable | reflexivity | reflexivity].
Defined.

(** ** Counting the keys *)

(** X3. [size()] is the number of records.  A write that returns adds one
    when the key is new and none when it is present; [del] takes one away
    when the key is present and none when it is absent; an expiration takes
    one away; after [clear] the count is 0. *)
Theorem size_counts_records st :
  reachable st →
  size st = Ok (length (_cache st)) st ∧
  (∀ key value duration refreshInterval st',
     put key value duration refreshInterval st = Ok value st' →
     size st' =
       Ok (match prop_get (ToPropertyKey key) (_cache st) with
           | Some _ => length (_cache st)
           | None => S (length (_cache st))
           end) st') ∧
  (∀ key b st',
     del key st = Ok b st' →
     length (_cache st) = (if b then S (length (_cache st')) else length (_cache st')) ∧
     (b = true ↔ is_Some (prop_get (ToPropertyKey key) (_cache st)))) ∧
  (∀ h t, timers st !! h = Some t → t_kind t = Timeout →
          length (_cache st) = S (length (_cache (exec (AFire h) st)))) ∧
  size (exec AClear st) = Ok 0%nat (exec AClear st).
Proof.
  intros Hinv%reachable_inv. split_and!.
  - unfold size. by rewrite Object_keys_length.
  - intros key value duration refreshInterval st' Hput. run_put_in Hput.
    injection Hput as <-. unfold size. rewrite Object_keys_length. f_equal.
    rewrite <- (length_fmap fst), put_state_keys.
    destruct (prop_get (ToPropertyKey key) (_cache st));
      rewrite ?length_app, length_fmap; simpl; lia.
  - intros key b st'. rewrite del_run.
    destruct (prop_get (ToPropertyKey key) (_cache st)) as [r|] eqn:Hr;
      intros [= <- <-].
    + split; [|split; eauto]. simpl. symmetry.
      eapply prop_delete_length; [apply (inv_nodup st Hinv)|done].
    + split; [done|]. split; [done|]. intros [? ?]; done.
  - intros h t Ht Hkind.
    pose proof (inv_owned st Hinv h t Ht) as Hown. unfold timer_owned in Hown.
    destruct t as [kind cb delay t0]. simpl in *. subst kind.
    destruct cb as [key|key]; destruct Hown as [? (r & Hr & Hh)]; [|done].
    rewrite (fire_expiry_run h key delay t0 r st Ht Hr Hh). simpl. symmetry.
    eapply prop_delete_length; [apply (inv_nodup st Hinv)|done].
  - simpl. by rewrite clear_run.
Qed.

Lemma size_counts_records_witness :
  reachable sample_both ∧
  size sample_both = Ok 1%nat sample_both ∧
  size (exec AClear sample_both) = Ok 0%nat (exec AClear sample_both).
Proof.
  split; [apply sample_both_reachable|].
  destruct (size_counts_records sample_both sample_both_reachable)
    as (Hsize & _ & _ & _ & Hclear).
  split; [exact Hsize | exact Hclear].
Defined.

(** ** What the methods leave alone *)

Lemma put_state_timers_other key value duration refreshInterval st h t :
  store_inv st →
  ToPropertyKey (cb_key (t_cb t)) ≠ ToPropertyKey key →
  timers (put_state key value duration refreshInterval st) !! h = Some t ↔
  timers st !! h = Some t.
Proof.
  intros Hinv Hk.
  assert (Hnew : ∀ (n : nat) T (ts : gmap nat Timer) ho,
            ToPropertyKey (cb_key (t_cb T)) = ToPropertyKey key →
            (ts !! n = None) →
            (∀ h0, ho = Some h0 → ∀ t0, ts !! h0 = Some t0 →
                   ToPropertyKey (cb_key (t_cb t0)) = ToPropertyKey key) →
            <[n := T]> (cancel ho ts) !! h = Some t ↔ ts !! h = Some t).
  { intros n T ts ho HT Hn Hho. rewrite lookup_rearm.
    repeat case_decide; subst.
    - rewrite Hn. split; [intros [= <-]; done | done].
    - split; [done|]. intros Ht. destruct Hk. by eapply Hho.
    - done. }
  assert (Hexp : ∀ r, prop_get (ToPropertyKey key) (_cache st) = Some r →
            ∀ h0, r_expirationTimeout r = Some h0 → ∀ t0, timers st !! h0 = Some t0 →
                  ToPropertyKey (cb_key (t_cb t0)) = ToPropertyKey key).
  { intros r Hr h0 Hh0 t0 Ht0.
    destruct (inv_expiration st Hinv _ _ _ Hr Hh0) as (? & ? & ? & Ht' & <-).
    rewrite Ht0 in Ht'. by injection Ht' as ->. }
  assert (Href : ∀ r, prop_get (ToPropertyKey key) (_cache st) = Some r →
            ∀ h0, r_refreshInterval r = Some h0 → ∀ t0, timers st !! h0 = Some t0 →
                  ToPropertyKey (cb_key (t_cb t0)) = ToPropertyKey key).
  { intros r Hr h0 Hh0 t0 Ht0.
    destruct (inv_refresh st Hinv _ _ _ Hr Hh0) as (? & ? & ? & Ht' & <-).
    rewrite Ht0 in Ht'. by injection Ht' as ->. }
  pose proof (inv_next_free st Hinv) as Hfree.
  unfold put_state, store_value, rearm_expiration, rearm_refresh.
  destruct (prop_get (ToPropertyKey key) (_cache st)) as [r|];
    repeat case_decide;
    cbn [timers with_cache _cache next_handle now from_option id
         r_expirationTimeout r_refreshInterval
         set_value set_duration set_expirationTimeout set_refreshInterval empty_record];
    try done.
  - apply Hnew; [done|done|]. intros h0 Hh0. exact (Hexp r eq_refl h0 Hh0).
  - apply Hnew; [done|done|]. intros h0 Hh0. exact (Href r eq_refl h0 Hh0).
  - rewrite Hnew;
      [apply Hnew; [done|done|]; intros h0 Hh0; exact (Hexp r eq_refl h0 Hh0)|done|..].
    + rewrite lookup_rearm, decide_False by lia.
      case_decide; [done|].
      destruct (timers st !! S (next_handle st)) eqn:E; [|done].
      assert (S (next_handle st) < next_handle st)%nat; [|lia].
      apply (inv_fresh st Hinv). by eexists.
    + intros h0 Hh0 t0. rewrite lookup_rearm.
      repeat case_decide; subst; try done.
      * by intros [= <-].
      * exact (Href r eq_refl h0 Hh0 t0).
  - apply (Hnew _ _ _ None); [done|done|]. intros h0 [=].
  - apply (Hnew _ _ _ None); [done|done|]. intros h0 [=].
  - transitivity
      (<[next_handle st := mkTimer Timeout (ExpiryCb key) duration (now st)]> (timers st)
         !! h = Some t).
    + apply (Hnew _ _ _ None); [done| |intros h0 [=]].
      rewrite lookup_insert_ne by lia.
      destruct (timers st !! S (next_handle st)) eqn:E; [|done].
      assert (S (next_handle st) < next_handle st)%nat; [|lia].
      apply (inv_fresh st Hinv). by eexists.
    + apply (Hnew _ _ _ None); [done|done|intros h0 [=]].
Qed.

(** X4. A call of [put], [get] or [del] for one key leaves every other key
    alone: the record found under another property name is the same after
    the call, and so are the armed timers whose callback is for another
    property name. *)
Theorem other_keys_untouched a key k st :
  reachable st →
  target a = Some key →
  ToPropertyKey key ≠ k →
  prop_get k (_cache (exec a st)) = prop_get k (_cache st) ∧
  ∀ h t, ToPropertyKey (cb_key (t_cb t)) = k →
         (timers (exec a st) !! h = Some t ↔ timers st !! h = Some t).
Proof.
  intros Hinv%reachable_inv Ha Hk.
  destruct a; simpl in Ha; try done; injection Ha as ->; simpl.
  - rewrite put_run.
    destruct (not_positive_number duration); [done|].
    destruct (not_positive_number refreshInterval); [done|]. simpl. split.
    + by apply put_state_cache_other.
    + intros h t Ht. apply put_state_timers_other; [done|]. congruence.
  - rewrite get_run.
    destruct (prop_get (ToPropertyKey key) (_cache st)) as [r|] eqn:Hr; [|done].
    simpl. case_decide; [|done]. simpl. split.
    + by rewrite prop_get_set, decide_False.
    + intros h t Ht. rewrite lookup_rearm. repeat case_decide; subst.
      * rewrite inv_next_free by done. split; [intros [= <-]; done | done].
      * split; [done|]. intros Ht'.
        destruct (inv_expiration st Hinv _ _ _ Hr H1) as (? & ? & ? & Ht'' & Hkk).
        rewrite Ht' in Ht''. injection Ht'' as ->. simpl in *. congruence.
      * done.
  - rewrite del_run.
    destruct (prop_get (ToPropertyKey key) (_cache st)) as [r|] eqn:Hr; [|done].
    simpl. split.
    + by rewrite prop_get_delete, decide_False.
    + intros h t Ht. rewrite lookup_cancel2_Some. split; [by intros (_ & _ & ?)|].
      intros Ht'. split_and!; [| |done].
      * intros Hh. destruct (inv_expiration st Hinv _ _ _ Hr Hh) as (? & ? & ? & Ht'' & Hkk).
        rewrite Ht' in Ht''. injection Ht'' as ->. simpl in *. congruence.
      * intros Hh. destruct (inv_refresh st Hinv _ _ _ Hr Hh) as (? & ? & ? & Ht'' & Hkk).
        rewrite Ht' in Ht''. injection Ht'' as ->. simpl in *. congruence.
Qed.

Lemma other_keys_untouched_witness :
  reachable sample_both ∧
  target (APut (VStr "other") VNull (VNum (Fin 5)) (VNum (Fin 7))) = Some (VStr "other") ∧
  ToPropertyKey (VStr "other") ≠ "key" ∧
  prop_get "key"
    (_cache (exec (APut (VStr "other") VNull (VNum (Fin 5)) (VNum (Fin 7))) sample_both))
    = prop_get "key" (_cache sample_both) ∧
  ∀ h t, ToPropertyKey (cb_key (t_cb t)) = "key" →
         (timers (exec (APut (VStr "other") VNull (VNum (Fin 5)) (VNum (Fin 7))) sample_both)
            !! h = Some t ↔
          timers sample_both !! h = Some t).
Proof.
  split; [apply sample_both_reachable|]. split; [reflexivity|]. split; [done|].
  apply (other_keys_untouched
           (APut (VStr "other") VNull (VNum (Fin 5)) (VNum (Fin 7)))
           (VStr "other") "key" sample_both);
    [apply sample_both_reachable | reflexivity | done].
Defined.

(** ** Events come from timers only *)

(** X5. No call of a method emits an event: whatever the state and the
    arguments, [put], [get], [del], [clear], [resetExpiryOnAccess], [size]
    and [keys] leave the list of emitted events as it was. *)
Theorem calls_emit_nothing a st :
  is_call a → emitted (exec a st) = emitted st.
Proof.
  intros Ha. destruct a; simpl in *; try done.
  - rewrite put_run.
    destruct (not_positive_number duration); [done|].
    destruct (not_positive_number refreshInterval); [done|].
    apply put_state_emitted.
  - rewrite get_run.
    destruct (prop_get (ToPropertyKey key) (_cache st)); [|done].
    simpl. by case_decide.
  - rewrite del_run. by destruct (prop_get (ToPropertyKey key) (_cache st)).
  - by rewrite clear_run.
  - by destruct shouldResetExpiry.
Qed.

Lemma calls_emit_nothing_witness :
  is_call (ADel (VStr "key")) ∧
  emitted (exec (ADel (VStr "key")) sample_both) = emitted sample_both.
Proof.
  split; [exact I|]. apply (calls_emit_nothing (ADel (VStr "key")) sample_both). exact I.
Defined.

(** ** A key without a duration *)

Lemma no_duration_no_timeout st k r :
  store_inv st → prop_get k (_cache st) = Some r → r_duration r = VUndefined →
  ∀ h t, timers st !! h = Some t → t_kind t = Timeout →
         ToPropertyKey (cb_key (t_cb t)) ≠ k.
Proof.
  intros Hinv Hr Hd h t Ht Hkind Hk.
  pose proof (inv_owned st Hinv h t Ht) as Hown. unfold timer_owned in Hown.
  destruct (t_cb t) as [key|key]; simpl in *.
  - destruct Hown as [_ (r' & Hr' & Hh)]. rewrite Hk, Hr in Hr'. injection Hr' as <-.
    apply (inv_duration st Hinv k r Hr) in Hd. congruence.
  - destruct Hown as [? _]. congruence.
Qed.

Lemma exec_keeps_no_duration a st k r :
  store_inv st → prop_get k (_cache st) = Some r → r_duration r = VUndefined →
  ¬ may_end k a →
  ∃ r', prop_get k (_cache (exec a st)) = Some r' ∧ r_duration r' = VUndefined.
Proof.
  intros Hinv Hr Hd Ha. destruct a; simpl in *; eauto.
  - rewrite put_run.
    destruct (not_positive_number duration); [eauto|].
    destruct (not_positive_number refreshInterval); [eauto|]. simpl.
    destruct (decide (ToPropertyKey key = k)) as [<-|Hk].
    + assert (duration = VUndefined) as ->.
      { destruct (decide (duration = VUndefined)); [done|]. destruct Ha. done. }
      unfold put_state, store_value, rearm_refresh. rewrite Hr.
      destruct (decide (VUndefined = VUndefined)); [|done].
      destruct (decide (refreshInterval = VUndefined)); simpl; eexists;
        rewrite ?prop_get_set; (split; [by rewrite decide_True|done]).
    + rewrite put_state_cache_other by done. eauto.
  - rewrite get_run.
    destruct (prop_get (ToPropertyKey key) (_cache st)) as [r0|] eqn:Hr0; [|eauto].
    simpl. case_decide as Hc; [|eauto]. simpl.
    rewrite prop_get_set. case_decide; [|eauto]. subst k.
    destruct Hc as [Hc _]. congruence.
  - rewrite del_run.
    destruct (prop_get (ToPropertyKey key) (_cache st)) as [r0|] eqn:Hr0; [|eauto].
    simpl. rewrite prop_get_delete, decide_False by done. eauto.
  - by destruct Ha.
  - destruct shouldResetExpiry; simpl; eauto.
  - destruct (fire_run h st Hinv) as [-> _].
    destruct (timers st !! h) as [t|] eqn:Ht; [|eauto].
    destruct (prop_get (ToPropertyKey (cb_key (t_cb t))) (_cache st)) as [r0|]; [|eauto].
    pose proof (inv_owned st Hinv h t Ht) as Hown. unfold timer_owned in Hown.
    pose proof (no_duration_no_timeout st k r Hinv Hr Hd h t Ht) as Hno.
    destruct (t_cb t) as [key|key]; simpl in *; [|eauto].
    destruct Hown as [Hkind _]. specialize (Hno Hkind).
    rewrite prop_get_delete, decide_False by done. eauto.
Qed.

(** X6. A key whose record has no duration does not expire: as long as
    there is no [clear], no [del] of the key and no write to it with a
    duration, whatever timers run and however much time passes, the key is
    present and its record still has no duration. *)
Theorem no_duration_never_expires k r st l st' :
  reachable st →
  prop_get k (_cache st) = Some r → r_duration r = VUndefined →
  trace st l st' → Forall (λ a, ¬ may_end k a) l →
  ∃ r', prop_get k (_cache st') = Some r' ∧ r_duration r' = VUndefined.
Proof.
  intros Hinv%reachable_inv Hr Hd Htr. revert r Hinv Hr Hd.
  induction Htr as [st|a l st st' He Htr IH]; intros r Hinv Hr Hd Hl; [eauto|].
  apply Forall_cons in Hl as [Ha Hl].
  destruct (exec_keeps_no_duration a st k r Hinv Hr Hd Ha) as (r1 & Hr1 & Hd1).
  apply (IH r1); [by apply exec_inv|done..].
Qed.

Lemma no_duration_never_expires_witness :
  let st := exec (APut (VStr "key") (VStr "value") VUndefined (VNum (Fin 10))) init in
  reachable st ∧
  prop_get "key" (_cache st) = Some (mkRecord (VStr "value") VUndefined None (Some 0%nat)) ∧
  trace st [AWait 10; AFire 0%nat; AGet (VStr "key")]
    (exec (AGet (VStr "key")) (exec (AFire 0%nat) (exec (AWait 10) st))) ∧
  ∃ r', prop_get "key"
          (_cache (exec (AGet (VStr "key")) (exec (AFire 0%nat) (exec (AWait 10) st))))
          = Some r' ∧
        r_duration r' = VUndefined.
Proof.
  assert (Hreach : reachable
            (exec (APut (VStr "key") (VStr "value") VUndefined (VNum (Fin 10))) init)).
  { apply reachable_exec; [apply reachable_init | exact I]. }
  assert (Htr : trace
            (exec (APut (VStr "key") (VStr "value") VUndefined (VNum (Fin 10))) init)
            [AWait 10; AFire 0%nat; AGet (VStr "key")]
            (exec (AGet (VStr "key")) (exec (AFire 0%nat) (exec (AWait 10)
               (exec (APut (VStr "key") (VStr "value") VUndefined (VNum (Fin 10))) init))))).
  { constructor; [simpl; lia|]. constructor; [reflexivity|].
    constructor; [exact I|]. constructor. }
  split; [exact Hreach|]. split; [reflexivity|]. split; [exact Htr|].
  apply (no_duration_never_expires "key"
           (mkRecord (VStr "value") VUndefined None (Some 0%nat)) _ _ _
           Hreach eq_refl eq_refl Htr).
  repeat constructor; simpl; tauto.
Defined.

(** ** A new key *)

(** X7. A write of a key that is absent makes a record that owes nothing to
    the past.  The record holds the value and the duration as given.  For
    each of the two timers: when its argument is omitted the record holds no
    handle for it; when it is supplied the record holds a handle that was
    not armed before the call and is armed after it, with the callback for
    the key, the delay given and the time of the call.  The timers armed for
    the key after the call are exactly these, and every timer armed before
    the call is still armed as it was. *)
Theorem put_creates_fresh_record key value duration refreshInterval st st' :
  reachable st →
  prop_get (ToPropertyKey key) (_cache st) = None →
  put key value duration refreshInterval st = Ok value st' →
  ∃ record,
    prop_get (ToPropertyKey key) (_cache st') = Some record ∧
    r_value record = value ∧
    r_duration record = duration ∧
    (duration = VUndefined → r_expirationTimeout record = None) ∧
    (refreshInterval = VUndefined → r_refreshInterval record = None) ∧
    (duration ≠ VUndefined →
     timer_replaced Timeout (ExpiryCb key) duration
       None (r_expirationTimeout record) st st') ∧
    (refreshInterval ≠ VUndefined →
     timer_replaced Interval (RefreshCb key) refreshInterval
       None (r_refreshInterval record) st st') ∧
    (∀ h t, timers st' !! h = Some t →
            ToPropertyKey (cb_key (t_cb t)) = ToPropertyKey key →
            timers st !! h = None ∧ t_at t = now st ∧
            ((r_expirationTimeout record = Some h ∧ t_kind t = Timeout ∧
              t_delay t = duration) ∨
             (r_refreshInterval record = Some h ∧ t_kind t = Interval ∧
              t_delay t = refreshInterval))) ∧
    (∀ h t, timers st !! h = Some t → timers st' !! h = Some t).
Proof.
  intros Hinv%reachable_inv Habs Hput. run_put_in Hput. injection Hput as <-.
  pose proof (absent_no_timer st _ Hinv Habs) as Hno.
  pose proof (inv_next_free st Hinv) as Hfree.
  assert (Hfree' : timers st !! S (next_handle st) = None).
  { destruct (timers st !! S (next_handle st)) eqn:E; [|done].
    assert (S (next_handle st) < next_handle st)%nat; [|lia].
    apply (inv_fresh st Hinv). by eexists. }
  assert (Hlt : ∀ h t, timers st !! h = Some t → (h < next_handle st)%nat).
  { intros h t Ht. apply (inv_fresh st Hinv). by eexists. }
  unfold put_state, store_value, rearm_expiration, rearm_refresh, timer_replaced.
  rewrite Habs.
  destruct (decide (duration = VUndefined)) as [->|Hd],
           (decide (refreshInterval = VUndefined)) as [->|Hr];
    cbn [_cache with_cache timers next_handle now from_option id
         r_expirationTimeout r_refreshInterval r_duration r_value
         set_value set_duration set_expirationTimeout set_refreshInterval empty_record
         cancel];
    eexists; rewrite ?prop_get_set, ?decide_True by done;
    (split; [reflexivity|]); cbn [r_value r_duration r_expirationTimeout r_refreshInterval];
    split_and!; try done.
  - intros h t Ht Hk. by destruct (Hno h t Ht).
  - intros _. split; [done|]. eexists. split_and!; [done|done|by rewrite lookup_insert_eq].
  - intros h t. rewrite lookup_insert. case_decide; subst.
    + intros [= <-] _. split_and!; [done..|]. right. done.
    + intros Ht Hk. by destruct (Hno h t Ht).
  - intros h t Ht. rewrite lookup_insert_ne; [done|]. pose proof (Hlt h t Ht). lia.
  - intros _. split; [done|]. eexists. split_and!; [done|done|by rewrite lookup_insert_eq].
  - intros h t. rewrite lookup_insert. case_decide; subst.
    + intros [= <-] _. split_and!; [done..|]. left. done.
    + intros Ht Hk. by destruct (Hno h t Ht).
  - intros h t Ht. rewrite lookup_insert_ne; [done|]. pose proof (Hlt h t Ht). lia.
  - intros _. split; [done|]. eexists. split_and!; [done|done|].
    rewrite lookup_insert_ne by lia. by rewrite lookup_insert_eq.
  - intros _. split; [done|]. eexists. split_and!; [done|done|by rewrite lookup_insert_eq].
  - intros h t. rewrite !lookup_insert. repeat case_decide; subst.
    + intros [= <-] _. split_and!; [done..|]. right. done.
    + intros [= <-] _. split_and!; [done..|]. left. done.
    + intros Ht Hk. by destruct (Hno h t Ht).
  - intros h t Ht. pose proof (Hlt h t Ht). rewrite !lookup_insert_ne by lia. done.
Qed.

(** [put('key', 'again', 5, 7)] after [del('key')] on [sample_both]: the
    record holds two new handles, armed for 5 and for 7 ms. *)
Lemma put_creates_fresh_record_witness :
  let st := exec (ADel (VStr "key")) sample_both in
  let st' := exec (APut (VStr "key") (VStr "again") (VNum (Fin 5)) (VNum (Fin 7))) st in
  reachable st ∧
  prop_get (ToPropertyKey (VStr "key")) (_cache st) = None ∧
  put (VStr "key") (VStr "again") (VNum (Fin 5)) (VNum (Fin 7)) st = Ok (VStr "again") st' ∧
  ∃ record,
    prop_get "key" (_cache st') = Some record ∧
    r_value record = VStr "again" ∧
    r_duration record = VNum (Fin 5) ∧
    timer_replaced Timeout (ExpiryCb (VStr "key")) (VNum (Fin 5))
      None (r_expirationTimeout record) st st' ∧
    timer_replaced Interval (RefreshCb (VStr "key")) (VNum (Fin 7))
      None (r_refreshInterval record) st st' ∧
    (∀ h t, timers st' !! h = Some t →
            ToPropertyKey (cb_key (t_cb t)) = "key" →
            timers st !! h = None ∧ t_at t = now st ∧
            ((r_expirationTimeout record = Some h ∧ t_kind t = Timeout ∧
              t_delay t = VNum (Fin 5)) ∨
             (r_refreshInterval record = Some h ∧ t_kind t = Interval ∧
              t_delay t = VNum (Fin 7)))) ∧
    (∀ h t, timers st !! h = Some t → timers st' !! h = Some t).
Proof.
  assert (Hreach : reachable (exec (ADel (VStr "key")) sample_both)).
  { apply reachable_exec; [apply sample_both_reachable | exact I]. }
  split; [exact Hreach|]. split; [reflexivity|]. split; [reflexivity|].
  destruct (put_creates_fresh_record (VStr "key") (VStr "again") (VNum (Fin 5)) (VNum (Fin 7))
              (exec (ADel (VStr "key")) sample_both) _ Hreach eq_refl eq_refl)
    as (record & Hrec & Hv & Hd & _ & _ & Hexp & Href & Hup & Hkeep).
  exists record. split_and!; [exact Hrec|exact Hv|exact Hd| | |exact Hup|exact Hkeep].
  - by apply Hexp.
  - by apply Href.
Defined.

(** ** The expiry of a key written to a new cache *)

Lemma fresh_timed_waiting key value d :
  0 < d → fresh_timed key value d = waiting key value d 0.
Proof.
  intros Hd. unfold fresh_timed, after. rewrite put_run.
  change (not_positive_number (VNum (Fin d))) with (bool_decide (d <= 0)).
  rewrite bool_decide_eq_false_2 by lia.
  change (not_positive_number VUndefined) with false. cbn [state_of].
  unfold put_state, store_value, rearm_expiration, waiting, init.
  cbn [_cache with_cache prop_get prop_set from_option id timers next_handle now
       emitted _resetExpiryOnAccess r_expirationTimeout cancel].
  rewrite (decide_True (P := VUndefined = VUndefined)) by done.
  rewrite (decide_False (P := VNum (Fin d) = VUndefined)) by done.
  cbn [_cache with_cache prop_get prop_set from_option id timers next_handle now
       emitted _resetExpiryOnAccess r_expirationTimeout cancel].
  rewrite decide_True by done. reflexivity.
Qed.

Lemma waiting_is_due key value d m :
  1 <= d <= TIMEOUT_MAX →
  is_due (waiting key value d m) 0%nat = bool_decide (d <= m).
Proof.
  intros Hd. unfold is_due, waiting. cbn [timers now].
  rewrite lookup_insert_eq. unfold timer_due, delay_ms. cbn [t_at t_delay].
  rewrite (bool_decide_eq_true_2 (1 <= d <= TIMEOUT_MAX)) by done.
  by rewrite Z.add_0_l.
Qed.

Lemma tick1_waiting key value d m :
  1 <= d <= TIMEOUT_MAX → m + 1 < d →
  tick1 (waiting key value d m) = Ok () (waiting key value d (m + 1)).
Proof.
  intros Hd Hm. unfold tick1.
  change (with_now (now (waiting key value d m) + 1) (waiting key value d m))
    with (waiting key value d (m + 1)).
  change (seq 0 (next_handle (waiting key value d (m + 1)))) with [0%nat].
  rewrite filter_cons, waiting_is_due by done.
  rewrite bool_decide_eq_false_2 by lia. reflexivity.
Qed.

Lemma tick1_expiring key value d m :
  1 <= d <= TIMEOUT_MAX → m + 1 = d →
  tick1 (waiting key value d m) = Ok () (expired key value d).
Proof.
  intros Hd Hm. unfold tick1.
  change (with_now (now (waiting key value d m) + 1) (waiting key value d m))
    with (waiting key value d (m + 1)).
  change (seq 0 (next_handle (waiting key value d (m + 1)))) with [0%nat].
  rewrite filter_cons, waiting_is_due by done.
  rewrite bool_decide_eq_true_2 by lia.
  rewrite decide_True by done. rewrite filter_nil.
  cbn [run_due]. unfold mbind, M_bind.
  rewrite waiting_is_due by done. rewrite bool_decide_eq_true_2 by lia.
  rewrite (fire_expiry_run 0%nat key (VNum (Fin d)) 0
             (mkRecord value (VNum (Fin d)) (Some 0%nat) None));
    [|by (unfold waiting; cbn [timers]; rewrite lookup_insert_eq)
     |by (unfold waiting; cbn [_cache prop_get]; rewrite decide_True)
     |done].
  unfold remove, add_event, waiting, expired, prop_delete.
  cbn [_cache timers now emitted next_handle _resetExpiryOnAccess
       r_expirationTimeout r_refreshInterval r_value cancel].
  rewrite filter_cons, decide_False by (intros Hne; by apply Hne).
  rewrite filter_nil, delete_insert_eq, delete_empty. cbn [mret M_ret app].
  by rewrite Hm.
Qed.

Lemma tick1_expired key value m :
  tick1 (expired key value m) = Ok () (expired key value (m + 1)).
Proof. reflexivity. Qed.

Lemma tick_waiting key value d n m :
  1 <= d <= TIMEOUT_MAX → m + Z.of_nat n < d →
  tick n (waiting key value d m) = Ok () (waiting key value d (m + Z.of_nat n)).
Proof.
  intros Hd. revert m. induction n as [|n IH]; intros m Hm.
  - cbn [tick]. by rewrite Nat2Z.inj_0, Z.add_0_r.
  - cbn [tick]. unfold mbind, M_bind. rewrite tick1_waiting by lia.
    rewrite IH by lia. do 2 f_equal. lia.
Qed.

Lemma tick_expired key value n m :
  tick n (expired key value m) = Ok () (expired key value (m + Z.of_nat n)).
Proof.
  revert m. induction n as [|n IH]; intros m.
  - cbn [tick]. by rewrite Nat2Z.inj_0, Z.add_0_r.
  - cbn [tick]. unfold mbind, M_bind. rewrite tick1_expired, IH. do 2 f_equal. lia.
Qed.

Lemma tick_expiring key value d n m :
  1 <= d <= TIMEOUT_MAX → m < d → d <= m + Z.of_nat n →
  tick n (waiting key value d m) = Ok () (expired key value (m + Z.of_nat n)).
Proof.
  intros Hd. revert m. induction n as [|n IH]; intros m Hm Hn; [lia|].
  cbn [tick]. unfold mbind, M_bind.
  destruct (decide (m + 1 = d)) as [Heq|Hne].
  - rewrite tick1_expiring by done. rewrite tick_expired. do 2 f_equal. lia.
  - rewrite tick1_waiting by lia. rewrite IH by lia. do 2 f_equal. lia.
Qed.

(** X8. [put(key, value, d)] on a new cache, with [d] a whole number of
    milliseconds between 1 and 2^31 - 1, then the clock run for [n]
    milliseconds: before [d] nothing was emitted and the key reads back its
    value; from [d] on exactly one event was emitted, the expiry of the key
    with its value, the key is gone, no timer is armed, and [del] of the key
    returns false. *)
Theorem expiry_after_duration key value d n :
  1 <= d <= TIMEOUT_MAX →
  let st := after (tick n) (fresh_timed key value d) in
  tick n (fresh_timed key value d) = Ok () st ∧
  if decide (Z.of_nat n < d) then
    emitted st = [] ∧ get key st = Ok value st
  else
    emitted st = [mkEvent "expiry" key value] ∧
    get key st = Ok VNull st ∧ del key st = Ok false st ∧
    keys st = Ok [] st ∧ timers st = ∅.
Proof.
  intros Hd. rewrite fresh_timed_waiting by lia. unfold after.
  case_decide as Hn.
  - rewrite tick_waiting by lia. cbn [state_of]. split_and!; [done..|].
    rewrite get_run. unfold waiting. cbn [_cache prop_get].
    rewrite decide_True by done. cbn [r_value _resetExpiryOnAccess].
    rewrite decide_False; [done|]. intros [_ ?]; done.
  - rewrite tick_expiring by lia. cbn [state_of]. done.
Qed.

Lemma expiry_after_duration_witness :
  1 <= 25 <= TIMEOUT_MAX ∧
  emitted (after (tick 24) (fresh_timed (VStr "key") (VStr "value") 25)) = [] ∧
  emitted (after (tick 60) (fresh_timed (VStr "key") (VStr "value") 25)) =
    [mkEvent "expiry" (VStr "key") (VStr "value")].
Proof.
  assert (H : 1 <= 25 <= TIMEOUT_MAX) by (unfold TIMEOUT_MAX; lia).
  split; [exact H|]. split.
  - apply (expiry_after_duration (VStr "key") (VStr "value") 25 24 H).
  - apply (expiry_after_duration (VStr "key") (VStr "value") 25 60 H).
Defined.

(** ** No timer without a record *)

Lemma length_timer_slots ks : length (timer_slots ks) = (2 * length ks)%nat.
Proof.
  unfold timer_slots. induction ks as [|k ks IH]; [done|].
  rewrite bind_cons, length_app, IH. simpl. lia.
Qed.

Lemma elem_of_timer_slots ks k kind : k ∈ ks → (k, kind) ∈ timer_slots ks.
Proof.
  intros Hk. unfold timer_slots. apply list_elem_of_bind. exists k. split; [|done].
  destruct kind; [by left | right; by left].
Qed.

(** X9. Timers do not pile up: in every state the cache can reach, the
    number of armed timers is at most twice the number of keys (one
    expiration timer and one refresh timer each); with no key in the cache
    no timer is armed. *)
Theorem timers_bounded_by_keys st :
  reachable st →
  (base.size (timers st) ≤ 2 * length (_cache st))%nat ∧
  (_cache st = [] → timers st = ∅).
Proof.
  intros Hinv%reachable_inv.
  assert (Hbound : (base.size (timers st) ≤ 2 * length (_cache st))%nat).
  { rewrite <- length_map_to_list, <- (length_fmap fst (_cache st)), <- length_timer_slots.
    rewrite <- (length_fmap slot_of (map_to_list (timers st))).
    apply submseteq_length, NoDup_submseteq.
    - apply NoDup_fmap_2_strong; [|apply NoDup_map_to_list].
      intros [h1 t1] [h2 t2] H1%elem_of_map_to_list H2%elem_of_map_to_list Heq.
      unfold slot_of in Heq. simpl in Heq. injection Heq as Hk Hkind.
      destruct (inv_one_timer_each st Hinv) as [_ Huniq].
      assert (h1 = h2) as -> by (by eapply Huniq).
      rewrite H1 in H2. by injection H2 as ->.
    - intros [k kind] ([h t] & Heq & Ht%elem_of_map_to_list)%list_elem_of_fmap.
      unfold slot_of in Heq. simpl in Heq. injection Heq as -> ->.
      apply elem_of_timer_slots, prop_get_is_Some.
      pose proof (inv_owned st Hinv h t Ht) as Hown. unfold timer_owned in Hown.
      destruct (t_cb t); simpl; destruct Hown as [_ (r & -> & _)]; eauto. }
  split; [done|].
  intros Hc. rewrite Hc in Hbound. simpl in Hbound.
  apply map_size_empty_iff. lia.
Qed.

Lemma timers_bounded_by_keys_witness :
  reachable sample_both ∧
  (base.size (timers sample_both) ≤ 2 * length (_cache sample_both))%nat.
Proof.
  split; [apply sample_both_reachable|].
  apply (timers_bounded_by_keys sample_both). apply sample_both_reachable.
Defined.

(** ** The delays in use *)

Lemma valid_positive v : not_positive_number v = false → v ≠ VUndefined →
  positive_number v = true.
Proof. intros Hv Hne. by apply not_positive_number_spec in Hv as [?|?]. Qed.

Lemma delays_valid_init : delays_valid init.
Proof.
  unfold delays_valid, init. cbn [_cache timers prop_get]. split_and!.
  - intros k r [=].
  - intros h t Ht. by rewrite lookup_empty in Ht.
  - intros k r h t [=].
Qed.

Lemma store_value_delays key value st :
  delays_valid st → delays_valid (store_value key value st).
Proof.
  intros (Hdur & Hpos & Hagree). unfold store_value. split_and!; simpl.
  - intros k r. rewrite prop_get_set. case_decide; [|apply Hdur].
    intros [= <-]. simpl.
    destruct (prop_get (ToPropertyKey key) (_cache st)) eqn:E; simpl; [|by left].
    by eapply Hdur.
  - done.
  - intros k r h t. rewrite prop_get_set. case_decide; [|apply Hagree].
    intros [= <-]. simpl.
    destruct (prop_get (ToPropertyKey key) (_cache st)) eqn:E; simpl; [|done].
    by eapply Hagree.
Qed.

Lemma rearm_expiration_delays key delay record st :
  store_inv st → delays_valid st →
  prop_get (ToPropertyKey key) (_cache st) = Some record →
  positive_number delay = true →
  delays_valid (rearm_expiration key delay record st).
Proof.
  intros Hinv (Hdur & Hpos & Hagree) Hrec Hdelay. unfold rearm_expiration.
  split_and!; cbn [_cache timers].
  - intros k r. rewrite prop_get_set. case_decide; [|apply Hdur].
    intros [= <-]. by right.
  - intros h t. rewrite lookup_rearm. repeat case_decide; try done.
    + by intros [= <-].
    + apply Hpos.
  - intros k r h t. rewrite prop_get_set, lookup_rearm.
    case_decide as Hk; subst.
    + intros [= <-]. cbn [r_expirationTimeout r_duration set_expirationTimeout set_duration].
      intros [= <-]. rewrite decide_True by done. by intros [= <-].
    + intros Hr Hh. repeat case_decide; subst; try done.
      * pose proof (inv_expiration_lt st _ _ _ Hinv Hr Hh). lia.
      * by eapply Hagree.
Qed.

Lemma rearm_refresh_delays key delay record st :
  store_inv st → delays_valid st →
  prop_get (ToPropertyKey key) (_cache st) = Some record →
  positive_number delay = true →
  delays_valid (rearm_refresh key delay record st).
Proof.
  intros Hinv (Hdur & Hpos & Hagree) Hrec Hdelay. unfold rearm_refresh.
  split_and!; cbn [_cache timers].
  - intros k r. rewrite prop_get_set. case_decide; [|apply Hdur].
    intros [= <-]. simpl. by eapply Hdur.
  - intros h t. rewrite lookup_rearm. repeat case_decide; try done.
    + by intros [= <-].
    + apply Hpos.
  - intros k r h t. rewrite prop_get_set, lookup_rearm.
    assert (Hkeep : ∀ k0 r0, prop_get k0 (_cache st) = Some r0 →
              r_expirationTimeout r0 = Some h →
              (if decide (next_handle st = h) then Some (mkTimer Interval (RefreshCb key) delay (now st))
               else if decide (r_refreshInterval record = Some h) then None
               else timers st !! h) = Some t →
              t_delay t = r_duration r0).
    { intros k0 r0 Hr0 Hh. repeat case_decide; subst; try done.
      - pose proof (inv_expiration_lt st _ _ _ Hinv Hr0 Hh). lia.
      - by eapply Hagree. }
    destruct (decide (ToPropertyKey key = k)) as [<-|Hk].
    + intros [= <-]. simpl. by apply Hkeep with (ToPropertyKey key).
    + by apply Hkeep.
Qed.

Lemma remove_delays key record st :
  delays_valid st → delays_valid (remove key record st).
Proof.
  intros (Hdur & Hpos & Hagree). unfold remove. split_and!; cbn [_cache timers].
  - intros k r. rewrite prop_get_delete. case_decide; [done|apply Hdur].
  - intros h t (_ & _ & Ht)%lookup_cancel2_Some. by eapply Hpos.
  - intros k r h t. rewrite prop_get_delete. case_decide; [done|].
    intros Hr Hh (_ & _ & Ht)%lookup_cancel2_Some. by eapply Hagree.
Qed.

Lemma put_state_delays key value duration refreshInterval st :
  store_inv st → delays_valid st →
  not_positive_number duration = false →
  not_positive_number refreshInterval = false →
  delays_valid (put_state key value duration refreshInterval st).
Proof.
  intros Hinv Hval Hd Hr. unfold put_state.
  pose proof (store_value_inv key value st Hinv) as Hinv1.
  pose proof (store_value_delays key value st Hval) as Hval1.
  set (record1 := set_value value _) in *.
  assert (Hget1 : prop_get (ToPropertyKey key) (_cache (store_value key value st)) = Some record1).
  { unfold store_value. simpl. by rewrite prop_get_set, decide_True. }
  destruct (decide (duration = VUndefined)) as [Hdu|Hdu].
  - destruct (decide (refreshInterval = VUndefined)); [done|].
    apply rearm_refresh_delays; [done..|]. by apply valid_positive.
  - pose proof (rearm_expiration_inv key duration record1 _ Hinv1 Hget1 Hdu) as Hinv2.
    pose proof (rearm_expiration_delays key duration record1 _ Hinv1 Hval1 Hget1
                  (valid_positive _ Hd Hdu)) as Hval2.
    destruct (decide (refreshInterval = VUndefined)); [done|].
    apply rearm_refresh_delays; [done|done| |by apply valid_positive].
    unfold rearm_expiration. simpl. by rewrite prop_get_set, decide_True.
Qed.

Lemma exec_delays a st :
  store_inv st → delays_valid st → delays_valid (exec a st).
Proof.
  intros Hinv Hval. destruct a; simpl; try done.
  - rewrite put_run.
    destruct (not_positive_number duration) eqn:Hd; [done|].
    destruct (not_positive_number refreshInterval) eqn:Hr; [done|].
    by apply put_state_delays.
  - rewrite get_run.
    destruct (prop_get (ToPropertyKey key) (_cache st)) as [r|] eqn:Hr; [|done].
    simpl. case_decide as Hc; [|done]. destruct Hc as [Hc _].
    apply rearm_expiration_delays; [done..|].
    destruct Hval as (Hdur & _ & _). by destruct (Hdur _ _ Hr).
  - rewrite del_run.
    destruct (prop_get (ToPropertyKey key) (_cache st)) as [r|]; [|done].
    by apply remove_delays.
  - rewrite clear_run, cancel_records_all by done. simpl.
    split_and!; simpl; [intros k r [=] | | intros k r h t [=]].
    intros h t Ht. by rewrite lookup_empty in Ht.
  - by destruct shouldResetExpiry.
  - destruct (fire_run h st Hinv) as [-> _].
    destruct (timers st !! h) as [t|] eqn:Ht; [|done].
    destruct (prop_get (ToPropertyKey (cb_key (t_cb t))) (_cache st)) as [r|] eqn:Hr; [|done].
    destruct (t_cb t) as [key|key] eqn:Hcb; simpl.
    + destruct (remove_delays key r st Hval) as (? & ? & ?). by split_and!.
    + destruct Hval as (Hdur & Hpos & Hagree). split_and!; simpl; [done| |].
      * intros h' t'. rewrite lookup_insert. case_decide; subst; [|apply Hpos].
        intros [= <-]. simpl. by eapply Hpos.
      * intros k r' h' t' Hr' Hh'. rewrite lookup_insert. case_decide; subst.
        -- destruct (inv_expiration st Hinv _ _ _ Hr' Hh') as (? & ? & ? & Ht' & _).
           rewrite Ht in Ht'. injection Ht' as ->. simpl in Hcb. done.
        -- by eapply Hagree.
Qed.

Lemma trace_delays st l st' :
  trace st l st' → store_inv st → delays_valid st → delays_valid st'.
Proof.
  induction 1 as [|a l st st' He Htr IH]; [done|]. intros Hinv Hval.
  apply IH; [by apply exec_inv | by apply exec_delays].
Qed.

(** X10. Every delay in use passed the checks of [put]: in every state the
    cache can reach, each armed timer was given a positive number as its
    delay, and a record that holds an expiration handle has a positive
    number as its duration, which is the delay of the timer armed under
    that handle.  So a read that restarts the countdown restarts it with the
    delay of the timer it cancels. *)
Theorem armed_delays_are_valid st :
  reachable st →
  (∀ h t, timers st !! h = Some t → positive_number (t_delay t) = true) ∧
  (∀ k r h,
     prop_get k (_cache st) = Some r → r_expirationTimeout r = Some h →
     positive_number (r_duration r) = true ∧
     ∃ t, timers st !! h = Some t ∧ t_kind t = Timeout ∧ t_delay t = r_duration r).
Proof.
  intros [l Htr].
  pose proof (trace_inv _ _ _ Htr init_inv) as Hinv.
  destruct (trace_delays _ _ _ Htr init_inv delays_valid_init) as (Hdur & Hpos & Hagree).
  split; [done|]. intros k r h Hr Hh.
  destruct (inv_expiration st Hinv _ _ _ Hr Hh) as (key & d & t0 & Ht & _).
  pose proof (Hagree _ _ _ _ Hr Hh Ht) as Hd. simpl in Hd.
  split.
  - rewrite <- Hd. apply (Hpos _ _ Ht).
  - eexists. split; [exact Ht|]. done.
Qed.

Lemma armed_delays_are_valid_witness :
  reachable sample_both ∧
  positive_number (r_duration sample_record) = true ∧
  ∃ t, timers sample_both !! 0%nat = Some t ∧ t_kind t = Timeout ∧
       t_delay t = r_duration sample_record.
Proof.
  split; [apply sample_both_reachable|].
  destruct (armed_delays_are_valid sample_both sample_both_reachable) as [_ H].
  apply (H "key" sample_record 0%nat); reflexivity.
Defined.

(** ** The refresh events of a key written to a new cache *)

Lemma fresh_refreshing key value d :
  0 < d →
  after (put key value VUndefined (VNum (Fin d))) init = refreshing key value d 0 0.
Proof.
  intros Hd. unfold after. rewrite put_run.
  change (not_positive_number VUndefined) with false.
  change (not_positive_number (VNum (Fin d))) with (bool_decide (d <= 0)).
  rewrite bool_decide_eq_false_2 by lia. cbn [state_of].
  unfold put_state, store_value, rearm_refresh, refreshing, init.
  cbn [_cache with_cache prop_get prop_set from_option id timers next_handle now
       emitted _resetExpiryOnAccess r_refreshInterval cancel].
  rewrite (decide_True (P := VUndefined = VUndefined)) by done.
  rewrite (decide_False (P := VNum (Fin d) = VUndefined)) by done.
  cbn [_cache with_cache prop_get prop_set from_option id timers next_handle now
       emitted _resetExpiryOnAccess r_refreshInterval cancel set_value empty_record
       r_value r_duration r_expirationTimeout].
  rewrite decide_True by done. rewrite Z.mul_0_r. reflexivity.
Qed.

Lemma refreshing_is_due key value d q m :
  1 <= d <= TIMEOUT_MAX →
  is_due (refreshing key value d q m) 0%nat = bool_decide (d * Z.of_nat q + d <= m).
Proof.
  intros Hd. unfold is_due, refreshing. cbn [timers now].
  rewrite lookup_insert_eq. unfold timer_due, delay_ms. cbn [t_at t_delay].
  by rewrite (bool_decide_eq_true_2 (1 <= d <= TIMEOUT_MAX)) by done.
Qed.

Lemma tick1_refreshing_idle key value d q m :
  1 <= d <= TIMEOUT_MAX → m + 1 < d * Z.of_nat q + d →
  tick1 (refreshing key value d q m) = Ok () (refreshing key value d q (m + 1)).
Proof.
  intros Hd Hm. unfold tick1.
  change (with_now (now (refreshing key value d q m) + 1) (refreshing key value d q m))
    with (refreshing key value d q (m + 1)).
  change (seq 0 (next_handle (refreshing key value d q (m + 1)))) with [0%nat].
  rewrite filter_cons, refreshing_is_due by done.
  rewrite bool_decide_eq_false_2 by lia. reflexivity.
Qed.

Lemma tick1_refreshing_fires key value d q m :
  1 <= d <= TIMEOUT_MAX → m + 1 = d * Z.of_nat q + d →
  tick1 (refreshing key value d q m) = Ok () (refreshing key value d (S q) (m + 1)).
Proof.
  intros Hd Hm. unfold tick1.
  change (with_now (now (refreshing key value d q m) + 1) (refreshing key value d q m))
    with (refreshing key value d q (m + 1)).
  change (seq 0 (next_handle (refreshing key value d q (m + 1)))) with [0%nat].
  rewrite filter_cons, refreshing_is_due by done.
  rewrite bool_decide_eq_true_2 by lia.
  rewrite decide_True by done. rewrite filter_nil.
  cbn [run_due]. unfold mbind, M_bind.
  rewrite refreshing_is_due by done. rewrite bool_decide_eq_true_2 by lia.
  rewrite (fire_refresh_run 0%nat key (VNum (Fin d)) (d * Z.of_nat q)
             (mkRecord value VUndefined None (Some 0%nat)));
    [|by (unfold refreshing; cbn [timers]; rewrite lookup_insert_eq)
     |by (unfold refreshing; cbn [_cache prop_get]; rewrite decide_True)].
  unfold add_event, with_timers, refreshing.
  cbn [_cache timers now emitted next_handle _resetExpiryOnAccess r_value].
  rewrite insert_insert_eq, <- replicate_S_end. cbn [mret M_ret].
  do 3 f_equal. f_equal. lia.
Qed.

Lemma tick_refreshing key value d n q m :
  1 <= d <= TIMEOUT_MAX →
  d * Z.of_nat q <= m < d * Z.of_nat q + d →
  ∃ q', tick n (refreshing key value d q m)
          = Ok () (refreshing key value d q' (m + Z.of_nat n)) ∧
        d * Z.of_nat q' <= m + Z.of_nat n < d * Z.of_nat q' + d.
Proof.
  intros Hd. revert q m. induction n as [|n IH]; intros q m Hm.
  - exists q. cbn [tick]. rewrite Nat2Z.inj_0, Z.add_0_r. done.
  - cbn [tick]. unfold mbind, M_bind.
    destruct (decide (m + 1 = d * Z.of_nat q + d)) as [Heq|Hne].
    + rewrite tick1_refreshing_fires by done.
      destruct (IH (S q) (m + 1)) as (q' & Htick & Hq'); [lia|].
      exists q'. rewrite Htick. split; [do 2 f_equal; lia | lia].
    + rewrite tick1_refreshing_idle by lia.
      destruct (IH q (m + 1)) as (q' & Htick & Hq'); [lia|].
      exists q'. rewrite Htick. split; [do 2 f_equal; lia | lia].
Qed.

(** X11. [put(key, value, undefined, d)] on a new cache, with [d] a whole
    number of milliseconds between 1 and 2^31 - 1, then the clock run for
    [n] milliseconds: one refresh event, with the key and the value, was
    emitted for every full [d] milliseconds, and nothing else; the key still
    reads back its value and its refresh timer is still armed. *)
Theorem refresh_every_interval key value d n :
  1 <= d <= TIMEOUT_MAX →
  let st := after (tick n) (after (put key value VUndefined (VNum (Fin d))) init) in
  emitted st = replicate (Z.to_nat (Z.of_nat n / d)) (mkEvent "refresh" key value) ∧
  get key st = Ok value st ∧
  ∃ t, timers st !! 0%nat = Some t ∧ t_kind t = Interval ∧ t_delay t = VNum (Fin d).
Proof.
  intros Hd. rewrite fresh_refreshing by lia. unfold after.
  destruct (tick_refreshing key value d n 0 0 Hd) as (q & -> & Hq); [lia|].
  cbn [state_of]. rewrite Z.add_0_l in Hq.
  assert (Z.of_nat n / d = Z.of_nat q) as ->.
  { symmetry. apply (Z.div_unique_pos _ d _ (Z.of_nat n - d * Z.of_nat q)); lia. }
  rewrite Nat2Z.id. split_and!; [done| |].
  - rewrite get_run. unfold refreshing. cbn [_cache prop_get].
    rewrite decide_True by done. cbn [r_value r_duration _resetExpiryOnAccess].
    rewrite decide_False; [done|]. intros [? _]; done.
  - eexists. unfold refreshing. cbn [timers]. rewrite lookup_insert_eq. done.
Qed.

Lemma refresh_every_interval_witness :
  1 <= 10 <= TIMEOUT_MAX ∧
  emitted (after (tick 35)
             (after (put (VStr "key") (VStr "value") VUndefined (VNum (Fin 10))) init)) =
    replicate 3 (mkEvent "refresh" (VStr "key") (VStr "value")).
Proof.
  assert (H : 1 <= 10 <= TIMEOUT_MAX) by (unfold TIMEOUT_MAX; lia).
  split; [exact H|].
  apply (refresh_every_interval (VStr "key") (VStr "value") 10 35 H).
Defined.
